(** * Round-robin fixture scheduler of the league administration app

    Shallow embedding of the two schedule generators of the repository:

    - [generateRoundRobinPreview] (the client-side preview in the
      FixtureGenerator component), and
    - [POST] (the server-side handler of /api/fixtures/generate),

    together with the part of the JavaScript [Date] object both of them
    rely on.  JavaScript numbers that hold integers are modelled by [Z],
    arrays by [list], [undefined] read from an array by [None], and a
    thrown exception by the [Throw] result. *)

From Stdlib Require Import ZArith Lia String Ascii Sorted.
From stdpp Require Import base list strings.

Local Open Scope Z_scope.

(** ** The Date object

    Time values are milliseconds since the epoch, as in ECMAScript
    (section "Time Values and Time Range"); they are kept as unbounded
    integers, so the model has no "Invalid Date".  Local time is read
    off the host's time zone, whose offset from UTC depends on the
    instant (section "LocalTZA ( t, isUTC )"). *)
Module JSDate.

Definition msPerDay : Z := 86400000.
Definition msPerHour : Z := 3600000.
Definition msPerMinute : Z := 60000.
Definition msPerSecond : Z := 1000.

Definition Day (t : Z) : Z := t / msPerDay.
Definition TimeWithinDay (t : Z) : Z := t mod msPerDay.

Definition DaysInYear (y : Z) : Z :=
  if negb (y mod 4 =? 0) then 365
  else if negb (y mod 100 =? 0) then 366
  else if negb (y mod 400 =? 0) then 365
  else 366.

Definition DayFromYear (y : Z) : Z :=
  365 * (y - 1970) + (y - 1969) / 4 - (y - 1901) / 100 + (y - 1601) / 400.

Definition TimeFromYear (y : Z) : Z := msPerDay * DayFromYear y.

(** The largest [y] with [TimeFromYear y <= t]: an estimate from the mean
    length of a Gregorian year, corrected by at most one year. *)
Definition YearFromTime (t : Z) : Z :=
  let d := Day t in
  let y := 1970 + d * 400 / 146097 in
  if d <? DayFromYear y then y - 1
  else if DayFromYear (y + 1) <=? d then y + 1
  else y.

Definition InLeapYear (t : Z) : Z :=
  if DaysInYear (YearFromTime t) =? 366 then 1 else 0.

Definition DayWithinYear (t : Z) : Z := Day t - DayFromYear (YearFromTime t).

(** Number of days of the year that precede month [m] (0 = January). *)
Definition monthStart (m leap : Z) : Z :=
  if m =? 0 then 0
  else if m =? 1 then 31
  else if m =? 2 then 59 + leap
  else if m =? 3 then 90 + leap
  else if m =? 4 then 120 + leap
  else if m =? 5 then 151 + leap
  else if m =? 6 then 181 + leap
  else if m =? 7 then 212 + leap
  else if m =? 8 then 243 + leap
  else if m =? 9 then 273 + leap
  else if m =? 10 then 304 + leap
  else 334 + leap.

Definition MonthFromTime (t : Z) : Z :=
  let d := DayWithinYear t in
  let leap := InLeapYear t in
  if d <? 31 then 0
  else if d <? 59 + leap then 1
  else if d <? 90 + leap then 2
  else if d <? 120 + leap then 3
  else if d <? 151 + leap then 4
  else if d <? 181 + leap then 5
  else if d <? 212 + leap then 6
  else if d <? 243 + leap then 7
  else if d <? 273 + leap then 8
  else if d <? 304 + leap then 9
  else if d <? 334 + leap then 10
  else 11.

Definition DateFromTime (t : Z) : Z :=
  DayWithinYear t - monthStart (MonthFromTime t) (InLeapYear t) + 1.

Definition WeekDay (t : Z) : Z := (Day t + 4) mod 7.

Definition HourFromTime (t : Z) : Z := (t / msPerHour) mod 24.
Definition MinFromTime (t : Z) : Z := (t / msPerMinute) mod 60.
Definition SecFromTime (t : Z) : Z := (t / msPerSecond) mod 60.
Definition msFromTime (t : Z) : Z := t mod msPerSecond.

Definition MakeTime (hour min sec ms : Z) : Z :=
  hour * msPerHour + min * msPerMinute + sec * msPerSecond + ms.

(** Day number of the first day of month [month] of [year], plus
    [date - 1]; months outside 0..11 carry into the year. *)
Definition MakeDay (year month date : Z) : Z :=
  let ym := year + month / 12 in
  let mn := month mod 12 in
  let leap := if DaysInYear ym =? 366 then 1 else 0 in
  DayFromYear ym + monthStart mn leap + date - 1.

Definition MakeDate (day time : Z) : Z := day * msPerDay + time.

(** The host's time zone, as its rules give it: the offset of local time
    from UTC (milliseconds) in force before the first clock change, and
    the clock changes in order of time, each the instant from which its
    offset is in force.  The changes come in increasing order and every
    offset is less than a day, as ECMAScript's offsets (+HH:MM) are. *)
Module Zone.
Definition bounded (o : Z) : bool := (- msPerDay <? o) && (o <? msPerDay).

Fixpoint increasing (cs : list (Z * Z)) : bool :=
  match cs with
  | [] => true
  | (a, _) :: cs' =>
      match cs' with
      | [] => true
      | (a', _) :: _ => (a <? a') && increasing cs'
      end
  end.

Definition ok (base : Z) (changes : list (Z * Z)) : bool :=
  bounded base && forallb (fun c => bounded c.2) changes && increasing changes.

Record t := mk {
  base : Z;
  changes : list (Z * Z);
  wf : ok base changes = true
}.
End Zone.

(** The offset in force at the instant [t], the offset before the first
    of the changes [cs] being [p]. *)
Fixpoint offsetAt (p : Z) (cs : list (Z * Z)) (t : Z) : Z :=
  match cs with
  | [] => p
  | (a, o) :: cs' => if t <? a then p else offsetAt o cs' t
  end.

(** The offset by which the local time [t] is read.  A change at the
    instant [a] from the offset [p] to [o] moves the local clock from
    [a + p] to [a + o]: a local time that the change skips ([o] greater)
    or repeats ([o] smaller) is "interpreted using the time zone offset
    before the transition". *)
Fixpoint offsetOfLocal (p : Z) (cs : list (Z * Z)) (t : Z) : Z :=
  match cs with
  | [] => p
  | (a, o) :: cs' => if t <? a + Z.max p o then p else offsetOfLocal o cs' t
  end.

(** The local time [t] is one that a clock change skips. *)
Fixpoint skipped (p : Z) (cs : list (Z * Z)) (t : Z) : bool :=
  match cs with
  | [] => false
  | (a, o) :: cs' =>
      if t <? a + p then false else if t <? a + o then true else skipped o cs' t
  end.

Section LocalTime.
Variable zone : Zone.t.

(** [LocalTZA ( t, isUTC )] *)
Definition LocalTZA (t : Z) (isUTC : bool) : Z :=
  if isUTC then offsetAt (Zone.base zone) (Zone.changes zone) t
  else offsetOfLocal (Zone.base zone) (Zone.changes zone) t.

Definition LocalTime (t : Z) : Z := t + LocalTZA t true.
Definition UTC (t : Z) : Z := t - LocalTZA t false.

(** [d.getDay()] and [d.getDate()] *)
Definition getDay (tv : Z) : Z := WeekDay (LocalTime tv).
Definition getDate (tv : Z) : Z := DateFromTime (LocalTime tv).

(** [d.setDate(date)]: the new time value of [d] *)
Definition setDate (tv date : Z) : Z :=
  let t := LocalTime tv in
  let newDate :=
    MakeDate (MakeDay (YearFromTime t) (MonthFromTime t) date)
             (TimeWithinDay t) in
  UTC newDate.

(** [d.setHours(hour, min, sec, ms)]: the new time value of [d] *)
Definition setHours (tv hour min sec ms : Z) : Z :=
  let t := LocalTime tv in
  let date := MakeDate (Day t) (MakeTime hour min sec ms) in
  UTC date.
End LocalTime.

(** Decimal rendering of the [w] low digits of [v], zero padded. *)
Definition digit (v : Z) : ascii := ascii_of_nat (48 + Z.to_nat (v mod 10)).

Fixpoint pad (w : nat) (v : Z) : string :=
  match w with
  | O => EmptyString
  | S w' => pad w' (v / 10) +:+ String (digit v) EmptyString
  end.

(** [d.toISOString()]: YYYY-MM-DDTHH:mm:ss.sssZ in UTC, the year in the
    expanded six-digit form outside 0..9999. *)
Definition toISOString (tv : Z) : string :=
  let y := YearFromTime tv in
  let year :=
    if (0 <=? y) && (y <=? 9999) then pad 4 y
    else (if y <? 0 then "-" else "+") +:+ pad 6 (Z.abs y) in
  year +:+ "-" +:+ pad 2 (MonthFromTime tv + 1) +:+ "-" +:+
  pad 2 (DateFromTime tv) +:+ "T" +:+ pad 2 (HourFromTime tv) +:+ ":" +:+
  pad 2 (MinFromTime tv) +:+ ":" +:+ pad 2 (SecFromTime tv) +:+ "." +:+
  pad 3 (msFromTime tv) +:+ "Z".

End JSDate.

(** ** JavaScript values shared by the two generators *)

(** A thrown exception, with the message of the error object.  The
    generators themselves can only raise the [TypeError] of reading a
    property of [undefined] or [null]; [request.json()] raises a
    [SyntaxError] on a body that is not JSON. *)
Inductive Exn :=
  | TypeError (msg : string)
  | SyntaxError (msg : string).

Definition message (e : Exn) : string :=
  match e with
  | TypeError msg => msg
  | SyntaxError msg => msg
  end.

Inductive Result (A : Type) :=
  | Ok (a : A)
  | Throw (e : Exn).
Arguments Ok {A} a.
Arguments Throw {A} e.

Definition bind {A B} (c : Result A) (k : A -> Result B) : Result B :=
  match c with
  | Ok a => k a
  | Throw e => Throw e
  end.

Declare Scope js_scope.
Delimit Scope js_scope with js.
Notation "'let*' x ':=' c 'in' k" := (bind c (fun x => k))
  (at level 10, x name, c at level 100, k at level 200) : js_scope.
Notation "'let*' ' p ':=' c 'in' k" := (bind c (fun x => let 'p := x in k))
  (at level 10, p pattern, c at level 100, k at level 200) : js_scope.

(** A counted or for-of loop whose body updates the loop-carried state
    [s]; an exception in the body leaves the loop. *)
Fixpoint forEach {A S} (body : A -> S -> Result S) (xs : list A) (s : S)
  : Result S :=
  match xs with
  | [] => Ok s
  | x :: xs' => bind (body x s) (forEach body xs')
  end.

(** The values of [k] in [for (let k = 0; k < bound; k++)]. *)
Definition upto (bound : Z) : list Z := seqZ 0 bound.

(** The values of [i] in [for (let i = 0; i < n / 2; i++)], where the
    quotient is the real number n/2: the integers [i >= 0] with
    [2 * i < n]. *)
Definition uptoHalf (n : Z) : list Z := upto ((n + 1) / 2).

(** [arr.length], [arr[i]] (None is [undefined]) and [arr.slice(start, end)] *)
Definition len {A} (arr : list A) : Z := Z.of_nat (length arr).

Definition index {A} (arr : list A) (i : Z) : option A :=
  if i <? 0 then None else arr !! Z.to_nat i.

Definition slice {A} (arr : list A) (start : Z) (end_ : option Z) : list A :=
  let relative (r : Z) := if r <? 0 then Z.max (len arr + r) 0 else Z.min r (len arr) in
  let k := relative start in
  let final := match end_ with None => len arr | Some e => relative e end in
  take (Z.to_nat (final - k)) (drop (Z.to_nat k) arr).

(** A value read from JSON text; the numbers are the integers among
    JSON's. *)
#[local] Unset Elimination Schemes.
Inductive JsonValue :=
  | JNull
  | JBool (b : bool)
  | JNum (n : Z)
  | JStr (s : string)
  | JArr (items : list JsonValue)
  | JObj (members : list (string * JsonValue)).

#[local] Set Elimination Schemes.

Coercion JStr : string >-> JsonValue.

(** The member [name] of a parsed object: of members with one name
    [JSON.parse] keeps the last. *)
Fixpoint lookupLast (name : string) (members : list (string * JsonValue))
  : option JsonValue :=
  match members with
  | [] => None
  | (k, v) :: rest =>
      match lookupLast name rest with
      | Some w => Some w
      | None => if String.eqb k name then Some v else None
      end
  end.

(** [v.leagueId] for a JSON value [v]: a TypeError on [null], the member
    of an object, and [undefined] ([None]) on a boolean, a number, a
    string or an array, none of which has a property of that name. *)
Definition get_leagueId (v : JsonValue) : Result (option JsonValue) :=
  match v with
  | JNull => Throw (TypeError "Cannot read properties of null (reading 'leagueId')")
  | JObj members => Ok (lookupLast "leagueId" members)
  | JBool _ | JNum _ | JStr _ | JArr _ => Ok None
  end.

(** [!v] is false; [undefined] ([None]) is falsy like [null], [false],
    [0] and the empty string. *)
Definition truthy (v : option JsonValue) : bool :=
  match v with
  | None | Some JNull => false
  | Some (JBool b) => b
  | Some (JNum n) => negb (n =? 0)
  | Some (JStr s) => negb (String.eqb s "")
  | Some (JArr _) | Some (JObj _) => true
  end.

Module Team.
Record t := mk { id : string; name : string }.
End Team.

(** Reading a property of [t], which may be [undefined]: the object
    whose member is read, or the TypeError. *)
Definition deref (t : option Team.t) : Result Team.t :=
  match t with
  | Some t => Ok t
  | None => Throw (TypeError "Cannot read properties of undefined (reading 'id')")
  end.

(** The clock and time zone a generator runs with: [now] is the time
    value of [new Date()]. *)
Record Env := { now : Z; zone : JSDate.Zone.t }.

(** ** The client-side preview (FixtureGenerator component) *)

Module FixturePreview.
Record t := mk { round : Z; home : Team.t; away : Team.t; scheduledAt : string }.
End FixturePreview.

Module FixtureGenerator.
Import JSDate.
Local Open Scope js_scope.

(** start date: next Saturday at 10:00 local time *)
Definition startDate (env : Env) : Z :=
  let now := now env in
  let daysUntilSat :=
    let r := Z.rem ((6 - getDay (zone env) now) + 7) 7 in
    if r =? 0 then 7 else r in
  let start := now in
  let start := setDate (zone env) start (getDate (zone env) now + daysUntilSat) in
  setHours (zone env) start 10 0 0 0.

Definition roundDate (env : Env) (start round : Z) : Z :=
  let roundDate := start in
  setDate (zone env) roundDate (getDate (zone env) start + round * 7).

(** [[rotation[0], ...rotation.slice(1).slice(-1), ...rotation.slice(1, -1)]];
    arrays of teams hold no [undefined], so reading [rotation[0]] of an
    empty array is an exception here (the array is never empty). *)
Definition rotate (rotation : list Team.t) : Result (list Team.t) :=
  match index rotation 0 with
  | Some t0 =>
      Ok ([t0] ++ slice (slice rotation 1 None) (-1) None
               ++ slice rotation 1 (Some (-1)))
  | None => Throw (TypeError "Cannot read properties of undefined (reading 'id')")
  end.

(** Body of the inner loop: one slot of one round. *)
Definition slot (n round : Z) (roundDate : Z) (rotation : list Team.t)
    (i : Z) (schedule : list FixturePreview.t) : Result (list FixturePreview.t) :=
  let t1 := index rotation i in
  let t2 := index rotation (n - 1 - i) in
  let* t1 := deref t1 in
  if String.eqb (Team.id t1) "BYE" then Ok schedule else
  let* t2 := deref t2 in
  if String.eqb (Team.id t2) "BYE" then Ok schedule else
  Ok (schedule ++ [FixturePreview.mk (round + 1) t1 t2 (toISOString roundDate)]).

(** Body of the outer loop: one round. *)
Definition oneRound (env : Env) (n start : Z) (round : Z)
    (st : list Team.t * list FixturePreview.t)
  : Result (list Team.t * list FixturePreview.t) :=
  let '(rotation, schedule) := st in
  let roundDate := roundDate env start round in
  let* schedule := forEach (slot n round roundDate rotation) (uptoHalf n) schedule in
  let* rotation := rotate rotation in
  Ok (rotation, schedule).

Definition generateRoundRobinPreview (env : Env) (teams : list Team.t)
  : Result (list FixturePreview.t) :=
  if len teams <? 2 then Ok [] else
  let items := teams in
  let isOdd := Z.rem (len items) 2 =? 1 in
  let items := if isOdd then items ++ [Team.mk "BYE" "BYE"] else items in
  let n := len items in
  let rounds := n - 1 in
  let start := startDate env in
  let schedule := [] in
  let rotation := slice items 0 None in
  let* '(_, schedule) := forEach (oneRound env n start) (upto rounds) (rotation, schedule) in
  Ok schedule.
End FixtureGenerator.

(** ** The server-side handler (api/fixtures/generate/route.ts) *)

(** [data] argument of [prisma.fixture.create]; [leagueId] is the value
    the handler read from the request body. *)
Module FixtureData.
Record t := mk {
  leagueId : JsonValue;
  homeTeamId : string;
  awayTeamId : string;
  scheduledAt : Z;
  status : string
}.
End FixtureData.

(** A stored fixture: the data it was created from and the key the
    database gave it. *)
Module Fixture.
Record t := mk { id : string; data : FixtureData.t }.
End Fixture.

(** The storage service behind the prisma client, reduced to what the
    handler uses: the answer of [team.findMany] to a [leagueId] (teams in
    ascending order of name, [id] and [name] selected) and the table of
    fixtures.  [fixture.create] appends a row and returns it; the row's
    key is drawn by the database (DEFAULT gen_random_uuid()), [drawn]
    counting its draws.  The calls to the store do not fail. *)
Module Db.
Record t := mk {
  team_findMany : JsonValue -> list Team.t;
  fixtures : list Fixture.t;
  gen_random_uuid : nat -> string;
  drawn : nat
}.

Definition fixture_create (data : FixtureData.t) (db : t) : Fixture.t * t :=
  let f := Fixture.mk (gen_random_uuid db (drawn db)) data in
  (f, mk (team_findMany db) (fixtures db ++ [f]) (gen_random_uuid db) (S (drawn db))).
End Db.

Inductive Response :=
  | Json (createdFixtures : list Fixture.t)
  | Text (status : Z) (body : string).

(** The request, as [await req.json()] finds its body: text that is not
    JSON (the call throws a SyntaxError with the parser's message), or
    the value parsed from it. *)
Inductive Request :=
  | Unparsable (msg : string)
  | Parsed (body : JsonValue).

Definition req_json (req : Request) : Result JsonValue :=
  match req with
  | Unparsable msg => Throw (SyntaxError msg)
  | Parsed body => Ok body
  end.

Module GenerateRoute.
Import JSDate.
Local Open Scope js_scope.

Record Pair := { homeId : string; awayId : string }.

(** compute first round date: next Saturday at 10:00 *)
Definition startDate (env : Env) : Z :=
  let now := now env in
  let daysUntilSat :=
    let r := Z.rem ((6 - getDay (zone env) now) + 7) 7 in
    if r =? 0 then 7 else r in
  let start := now in
  let start := setDate (zone env) start (getDate (zone env) now + daysUntilSat) in
  setHours (zone env) start 10 0 0 0.

Definition roundDate (env : Env) (start round : Z) : Z :=
  let roundDate := start in
  setDate (zone env) roundDate (getDate (zone env) start + round * 7).

(** rotate (keep first element fixed) *)
Definition rotate (rotation : list Team.t) : Result (list Team.t) :=
  match index rotation 0 with
  | Some t0 =>
      Ok ([t0] ++ slice (slice rotation 1 None) (-1) None
               ++ slice rotation 1 (Some (-1)))
  | None => Throw (TypeError "Cannot read properties of undefined (reading 'id')")
  end.

(** Body of the loop that fills [pairs]. *)
Definition slot (n : Z) (rotation : list Team.t) (i : Z) (pairs : list Pair)
  : Result (list Pair) :=
  let t1 := index rotation i in
  let t2 := index rotation (n - 1 - i) in
  let* t1 := deref t1 in
  if String.eqb (Team.id t1) "BYE" then Ok pairs else
  let* t2 := deref t2 in
  if String.eqb (Team.id t2) "BYE" then Ok pairs else
  Ok (pairs ++ [{| homeId := Team.id t1; awayId := Team.id t2 |}]).

(** persist pairs as fixtures: body of the for-of loop *)
Definition persist (leagueId : JsonValue) (roundDate : Z)
    (st : list Fixture.t * Db.t) (p : Pair) : list Fixture.t * Db.t :=
  let '(createdFixtures, db) := st in
  let '(f, db) :=
    Db.fixture_create
      (FixtureData.mk leagueId (homeId p) (awayId p) roundDate "SCHEDULED") db in
  (createdFixtures ++ [f], db).

(** The loop-carried state of the handler: the rotation, the fixtures
    created so far and the store. *)
Record State := {
  st_rotation : list Team.t;
  st_created : list Fixture.t;
  st_db : Db.t
}.

(** An exception leaves the loop and reaches the catch clause; the
    writes made before it stay in the store. *)
Inductive Outcome :=
  | Running (st : State)
  | Aborted (e : Exn) (db : Db.t).

(** Body of the outer loop: one round. *)
Definition oneRound (env : Env) (leagueId : JsonValue) (n start : Z)
    (o : Outcome) (round : Z) : Outcome :=
  match o with
  | Aborted e db => Aborted e db
  | Running st =>
      let roundDate := roundDate env start round in
      match forEach (slot n (st_rotation st)) (uptoHalf n) [] with
      | Throw e => Aborted e (st_db st)
      | Ok pairs =>
          let '(created, db) :=
            fold_left (persist leagueId roundDate) pairs
                      (st_created st, st_db st) in
          match rotate (st_rotation st) with
          | Throw e => Aborted e db
          | Ok rotation => Running (Build_State rotation created db)
          end
      end
  end.

(** The handler.  An exception raised inside its [try], by
    [req.json()], by [body.leagueId] or by the loops, is answered 500
    with the message of the error. *)
Definition POST (env : Env) (req : Request) (db : Db.t) : Response * Db.t :=
  match req_json req with
  | Throw err => (Text 500 (message err), db)
  | Ok body =>
  match get_leagueId body with
  | Throw err => (Text 500 (message err), db)
  | Ok None => (Text 400 "Missing leagueId", db)
  | Ok (Some leagueId) =>
  if negb (truthy (Some leagueId)) then (Text 400 "Missing leagueId", db) else
  let teams := Db.team_findMany db leagueId in
  if len teams <? 2 then (Text 400 "At least two teams are required", db) else
  let items := map (fun t => Team.mk (Team.id t) (Team.name t)) teams in
  let isOdd := Z.rem (len items) 2 =? 1 in
  let items := if isOdd then items ++ [Team.mk "BYE" "BYE"] else items in
  let n := len items in
  let rounds := n - 1 in
  let start := startDate env in
  let rotation := slice items 0 None in
  let createdFixtures := [] in
  match fold_left (oneRound env leagueId n start) (upto rounds)
                  (Running (Build_State rotation createdFixtures db)) with
  | Running st => (Json (st_created st), st_db st)
  | Aborted e db => (Text 500 (message e), db)
  end
  end
  end.
End GenerateRoute.


(** ** The circle method, as a function of the round

    What the loops of the two generators compute, written without loop
    state: the rotation in force in round [r] and the matchups one
    rotation yields.  The generators are proved equal to these below
    ([preview_schedule], [server_schedule]). *)
Module Circle.
Definition BYE : Team.t := Team.mk "BYE" "BYE".

Definition isBye (t : Team.t) : bool := String.eqb (Team.id t) "BYE".

(** The roster, padded with the bye when its size is odd. *)
Definition padded (teams : list Team.t) : list Team.t :=
  if Nat.odd (length teams) then teams ++ [BYE] else teams.

(** One rotation step: seat 0 stays, the last seat moves to seat 1. *)
Definition rot1 (l : list Team.t) : list Team.t :=
  match l with
  | [] => []
  | t0 :: tl => t0 :: drop (length tl - 1) tl ++ take (length tl - 1) tl
  end.

Definition rotation_at (items : list Team.t) (r : nat) : list Team.t :=
  Nat.iter r rot1 items.

(** Slot [i] of a rotation: seat [i] at home against seat [n-1-i],
    nothing when either is the bye. *)
Definition pairAt (rotation : list Team.t) (i : nat) : option (Team.t * Team.t) :=
  match rotation !! i, rotation !! (length rotation - 1 - i)%nat with
  | Some t1, Some t2 => if isBye t1 || isBye t2 then None else Some (t1, t2)
  | _, _ => None
  end.

Definition matches (rotation : list Team.t) : list (Team.t * Team.t) :=
  omap (pairAt rotation) (seq 0 (length rotation / 2)).

(** The item seated at seat [p] in round [r], as an index into the
    initial array of [m + 1] items. *)
Definition src (m r p : nat) : nat :=
  if (p =? 0)%nat then 0%nat
  else if (p <=? r)%nat then (m - r + p)%nat
  else (p - r)%nat.

(** The matchup as the identifiers of home and away, and the
    identifiers it occupies. *)
Definition ids (p : Team.t * Team.t) : string * string :=
  (Team.id p.1, Team.id p.2).

Definition sides (p : Team.t * Team.t) : list string := [Team.id p.1; Team.id p.2].

(** All matchups of the schedule, round after round. *)
Definition allMatches (items : list Team.t) : list (Team.t * Team.t) :=
  seq 0 (length items - 1) ≫= (fun r => matches (rotation_at items r)).

(** The slots (round, seat) of a schedule of [m] rounds of [h] seats. *)
Definition slots (m h : nat) : list (nat * nat) :=
  seq 0 m ≫= (fun r => pair r <$> seq 0 h).

(** No identifier other than BYE sits at two places of [items]. *)
Definition UniqueReal (items : list Team.t) : Prop :=
  forall p q t t', items !! p = Some t -> items !! q = Some t' ->
    Team.id t = Team.id t' -> isBye t = false -> p = q.

(** The entries the preview emits for round [r]. *)
Definition previewEntry (round : Z) (date : Z) (p : Team.t * Team.t)
  : FixturePreview.t :=
  FixturePreview.mk (round + 1) p.1 p.2 (JSDate.toISOString date).

Definition previewRound (env : Env) (start : Z) (items : list Team.t) (r : nat)
  : list FixturePreview.t :=
  previewEntry (Z.of_nat r) (FixtureGenerator.roundDate env start (Z.of_nat r))
    <$> matches (rotation_at items r).

(** The data of the fixtures the handler creates for round [r]. *)
Definition serverPair (p : Team.t * Team.t) : GenerateRoute.Pair :=
  {| GenerateRoute.homeId := Team.id p.1; GenerateRoute.awayId := Team.id p.2 |}.

Definition pairData (leagueId : JsonValue) (date : Z) (p : GenerateRoute.Pair)
  : FixtureData.t :=
  FixtureData.mk leagueId (GenerateRoute.homeId p) (GenerateRoute.awayId p)
                 date "SCHEDULED".

Definition serverRound (env : Env) (leagueId : JsonValue) (start : Z)
    (items : list Team.t) (r : nat) : list FixtureData.t :=
  (fun p => pairData leagueId (GenerateRoute.roundDate env start (Z.of_nat r))
                     (serverPair p))
    <$> matches (rotation_at items r).

(** The rows the store makes of a sequence of [create] calls, the
    database having drawn [base] keys of its sequence [uuid] before. *)
Fixpoint stored (uuid : nat -> string) (base : nat) (datas : list FixtureData.t)
  : list Fixture.t :=
  match datas with
  | [] => []
  | d :: ds => Fixture.mk (uuid base) d :: stored uuid (S base) ds
  end.

(** The store after the rows [rows] were created in it. *)
Definition grown (db : Db.t) (rows : list Fixture.t) : Db.t :=
  Db.mk (Db.team_findMany db) (Db.fixtures db ++ rows)
        (Db.gen_random_uuid db) (Db.drawn db + length rows).
End Circle.

(** ** The properties the schedule is checked against *)

Definition teamIds (teams : list Team.t) : list string := Team.id <$> teams.

(** Home and away identifier of a preview entry and of a stored fixture. *)
Definition previewIds (f : FixturePreview.t) : string * string :=
  (Team.id (FixturePreview.home f), Team.id (FixturePreview.away f)).

Definition fixtureIds (f : Fixture.t) : string * string :=
  (FixtureData.homeTeamId (Fixture.data f), FixtureData.awayTeamId (Fixture.data f)).

(** The matchup [p] is between [x] and [y], either side at home. *)
Definition meets (x y : string) (p : string * string) : Prop :=
  (p.1 = x /\ p.2 = y) \/ (p.1 = y /\ p.2 = x).

#[global] Instance meets_dec x y p : Decision (meets x y p).
Proof. unfold meets. apply _. Defined.

(** Full coverage: [n * (n - 1) / 2] matchups, and every two distinct
    identifiers of the roster meet in exactly one of them. *)
Definition Coverage (teams : list Team.t) (played : list (string * string)) : Prop :=
  length played = (length teams * (length teams - 1) / 2)%nat /\
  forall x y, x ∈ teamIds teams -> y ∈ teamIds teams -> x <> y ->
    length (filter (meets x y) played) = 1%nat.

(** The number of rounds of a roster of [n] teams. *)
Definition roundCount (n : nat) : Z :=
  if Nat.even n then Z.of_nat n - 1 else Z.of_nat n.

(** The request the FixtureGenerator component sends for a league:
    [JSON.stringify({ leagueId })]. *)
Definition generateRequest (leagueId : string) : Request :=
  Parsed (JObj [("leagueId"%string, JStr leagueId)]).

(** The [leagueId] member of the body of a request, if it has one. *)
Definition body_leagueId (req : Request) : option JsonValue :=
  match req with
  | Parsed (JObj members) => lookupLast "leagueId" members
  | _ => None
  end.

(** The fixtures a response reports as created. *)
Definition createdIn (r : Response) : list Fixture.t :=
  match r with
  | Json createdFixtures => createdFixtures
  | Text _ _ => []
  end.

(** Modelled from the spec: the scheduling policy of the spec's data
    model (anchor weekday, round interval in days), which no function of
    the repository takes; a caller can only send it along in the request
    body. *)
Record SchedulingPolicy := { anchorWeekday : Z; roundIntervalDays : Z }.

Definition malformed (p : SchedulingPolicy) : Prop :=
  roundIntervalDays p < 0 \/ ~ (0 <= anchorWeekday p <= 6).

Definition policyMembers (p : SchedulingPolicy) : list (string * JsonValue) :=
  [("anchorWeekday"%string, JNum (anchorWeekday p));
   ("roundIntervalDays"%string, JNum (roundIntervalDays p))].

Definition policyRequest (leagueId : string) (p : SchedulingPolicy) : Request :=
  Parsed (JObj (("leagueId"%string, JStr leagueId) :: policyMembers p)).

(** Home and away identifier of a preview entry and of a stored fixture,
    as the list of identifiers the matchup occupies. *)
Definition previewSides (f : FixturePreview.t) : list string :=
  [Team.id (FixturePreview.home f); Team.id (FixturePreview.away f)].

Definition fixtureSides (f : Fixture.t) : list string :=
  [FixtureData.homeTeamId (Fixture.data f); FixtureData.awayTeamId (Fixture.data f)].

(** The entries of round [k] of a preview, and the fixtures scheduled at
    date [d]. *)
Definition inRound (k : Z) (sched : list FixturePreview.t) : list FixturePreview.t :=
  filter (fun f => FixturePreview.round f = k) sched.

Definition onDate (d : Z) (fs : list Fixture.t) : list Fixture.t :=
  filter (fun f => FixtureData.scheduledAt (Fixture.data f) = d) fs.

(** The rounds with a matchup in a preview are the rounds 1 to [R]. *)
Definition RoundsPlayed (sched : list FixturePreview.t) (R : Z) : Prop :=
  forall k, (exists f, f ∈ sched /\ FixturePreview.round f = k) <-> 1 <= k <= R.

(** The dates with a fixture are the dates of the rounds 0 to [R - 1]. *)
Definition DatesPlayed (env : Env) (fs : list Fixture.t) (R : Z) : Prop :=
  forall d, (exists f, f ∈ fs /\ FixtureData.scheduledAt (Fixture.data f) = d) <->
            (exists k, 0 <= k < R /\
                       d = GenerateRoute.roundDate env (GenerateRoute.startDate env) k).

(** The day number of [t] in local time. *)
Definition localDay (env : Env) (t : Z) : Z :=
  JSDate.Day (JSDate.LocalTime (zone env) t).

(** HTTP status of a response ([NextResponse.json] answers 200). *)
Definition statusOf (r : Response) : Z :=
  match r with
  | Json _ => 200
  | Text status _ => status
  end.

(** A preview entry and a stored fixture are the same matchup of the same
    round: same home and away identifiers, the entry's date the ISO
    rendering of the fixture's, which is the date of the entry's round. *)
Definition Agree (env : Env) (p : FixturePreview.t) (f : Fixture.t) : Prop :=
  Team.id (FixturePreview.home p) = FixtureData.homeTeamId (Fixture.data f) /\
  Team.id (FixturePreview.away p) = FixtureData.awayTeamId (Fixture.data f) /\
  FixturePreview.scheduledAt p = JSDate.toISOString (FixtureData.scheduledAt (Fixture.data f)) /\
  FixtureData.scheduledAt (Fixture.data f)
  = GenerateRoute.roundDate env (GenerateRoute.startDate env) (FixturePreview.round p - 1).

(** The roster of a league, as both generators receive it: the answer of
    the store to the team query. *)
Definition roster (db : Db.t) (leagueId : JsonValue) : list Team.t :=
  Db.team_findMany db leagueId.
Arguments roster db leagueId%_string.

(** The days from the day number [today] to the next Saturday after it,
    as both generators compute them from the weekday. *)
Definition daysUntilSat (today : Z) : Z :=
  let wd := (today + 4) mod 7 in
  let r := Z.rem ((6 - wd) + 7) 7 in
  if r =? 0 then 7 else r.

(** The local time [t] is on the clock of the zone: read the way [Date]
    reads a local time and shown again, it is [t] (no clock change skips
    it).  [keepsDay]: a clock change that skips [t] moves it within its
    own day at most. *)
Definition onClock (z : JSDate.Zone.t) (t : Z) : Prop :=
  JSDate.LocalTime z (JSDate.UTC z t) = t.

Definition keepsDay (z : JSDate.Zone.t) (t : Z) : Prop :=
  JSDate.Day (JSDate.LocalTime z (JSDate.UTC z t)) = JSDate.Day t.

(** The day number of the Saturday the anchor rule aims at. *)
Definition anchorDay (env : Env) : Z :=
  localDay env (now env) + daysUntilSat (localDay env (now env)).

(** The clock of the zone has that Saturday for the run at [now env]:
    the time of day of [now], which [setDate] carries to the Saturday, is
    not moved off that day by a clock change, and 10:00 of that Saturday
    is on the clock. *)
Definition AnchorKept (env : Env) : Prop :=
  keepsDay (zone env)
    (JSDate.LocalTime (zone env) (now env)
     + daysUntilSat (localDay env (now env)) * JSDate.msPerDay) /\
  onClock (zone env) (JSDate.MakeDate (anchorDay env) (JSDate.MakeTime 10 0 0 0)).

(** The zone keeps its Saturdays: every local time of a Saturday keeps
    its day, and 10:00 of every Saturday is on the clock. *)
Definition SaturdayKept (z : JSDate.Zone.t) : Prop :=
  forall t, JSDate.WeekDay t = 6 ->
    keepsDay z t /\ (JSDate.TimeWithinDay t = JSDate.MakeTime 10 0 0 0 -> onClock z t).

(** A test that is enough for it: no clock change of the zone skips a
    local time of a Saturday.  [hasSaturday s e]: a time of a Saturday
    lies in the local times from [s] up to [e]. *)
Definition hasSaturday (s e : Z) : bool :=
  JSDate.Day s + (6 - JSDate.WeekDay s) <=? JSDate.Day (e - 1).

Fixpoint skipsSaturday (p : Z) (cs : list (Z * Z)) : bool :=
  match cs with
  | [] => false
  | (a, o) :: cs' => ((p <? o) && hasSaturday (a + p) (a + o)) || skipsSaturday o cs'
  end.

Definition noSaturdaySkipped (z : JSDate.Zone.t) : bool :=
  negb (skipsSaturday (JSDate.Zone.base z) (JSDate.Zone.changes z)).

(** ** Concrete inputs

    Zones: UTC, a zone two hours ahead of UTC all year, and the rules of
    Europe/Berlin and of America/Nuuk for 2026 and 2027: both change
    their clocks on the last Sunday of March and of October at 01:00
    UTC, Berlin between UTC+1 and UTC+2, Nuuk between UTC-2 and UTC-1,
    so that in Nuuk the hour from 23:00 of the Saturday before is
    skipped in spring. *)
Definition utcZone : JSDate.Zone.t := JSDate.Zone.mk 0 [] eq_refl.
Definition plusTwoZone : JSDate.Zone.t := JSDate.Zone.mk 7200000 [] eq_refl.
Definition berlinZone : JSDate.Zone.t :=
  JSDate.Zone.mk 3600000
    [(1774746000000, 7200000); (1792890000000, 3600000);
     (1806195600000, 7200000); (1824944400000, 3600000)] eq_refl.

(** Monday 2 November 2026, 19:00 UTC, in Berlin. *)
Definition exampleEnv : Env := {| now := 1793646000000; zone := berlinZone |}.

(** The morning of the same day, 06:00 UTC. *)
Definition morningEnv : Env := {| now := 1793599200000; zone := berlinZone |}.

(** Saturday 24 October 2026, 22:30 UTC, in Berlin: Sunday, 00:30 local
    time, two and a half hours before the clocks go back. *)
Definition autumnEnv : Env := {| now := 1792881000000; zone := berlinZone |}.

(** The evening of that Sunday, 21:00 UTC, 22:00 local time. *)
Definition autumnNightEnv : Env := {| now := 1792962000000; zone := berlinZone |}.


(** Wednesday 21 October 2026, 12:00 UTC, read in Berlin and in a zone
    two hours ahead of UTC all year: the same local time on that day. *)
Definition octoberBerlin : Env := {| now := 1792584000000; zone := berlinZone |}.
Definition octoberPlusTwo : Env := {| now := 1792584000000; zone := plusTwoZone |}.

Definition threeTeams : list Team.t :=
  [Team.mk "t1" "Lions"; Team.mk "t2" "Rovers"; Team.mk "t3" "United"].

Definition fourTeams : list Team.t :=
  [Team.mk "t1" "Lions"; Team.mk "t2" "Rovers"; Team.mk "t3" "United";
   Team.mk "t4" "Wanderers"].

Definition byeTeams : list Team.t :=
  [Team.mk "BYE" "Byes United"; Team.mk "t1" "Lions"].

Definition byeThree : list Team.t :=
  [Team.mk "BYE" "Byes United"; Team.mk "t1" "Lions"; Team.mk "t2" "Rovers"].

Definition byeFour : list Team.t :=
  [Team.mk "BYE" "Byes United"; Team.mk "t1" "Lions"; Team.mk "t2" "Rovers";
   Team.mk "t3" "United"].

Definition oneTeam : list Team.t := [Team.mk "t1" "Lions"].

(** A store that answers every team query with [teams] and holds the
    fixtures [rows]; its keys are 00000000, 00000001, ... *)
Definition exampleDb (teams : list Team.t) (rows : list Fixture.t) : Db.t :=
  Db.mk (fun _ => teams) rows (fun k => JSDate.pad 8 (Z.of_nat k)) 0.

(** Friday 6 November 2026, 23:00 UTC, read by a client two hours ahead
    of UTC (where it is Saturday already) and by a server on UTC. *)
Definition clientEnv : Env := {| now := 1794006000000; zone := plusTwoZone |}.
Definition serverEnv : Env := {| now := 1794006000000; zone := utcZone |}.

Definition oldFixture : Fixture.t :=
  Fixture.mk "old" (FixtureData.mk "league-0" "t8" "t9" 0 "COMPLETED").

(** A store with the same teams that holds a fixture already and draws
    other keys. *)
Definition usedDb (teams : list Team.t) : Db.t :=
  Db.mk (fun _ => teams) [oldFixture] (fun k => String.append "k" (JSDate.pad 4 (Z.of_nat k))) 7.

Definition badPolicy : SchedulingPolicy :=
  {| anchorWeekday := 9; roundIntervalDays := -7 |}.

(** ** Further properties of the two generators *)

(** The rows the handler stores for a league whose roster has at least
    two teams: the fixtures of the rounds in order ([server_run] below
    proves that this is what [POST] answers and appends). *)
Definition serverRows (env : Env) (leagueId : JsonValue) (db : Db.t) : list Fixture.t :=
  Circle.stored (Db.gen_random_uuid db) (Db.drawn db)
    (seq 0 (length (Circle.padded (roster db leagueId)) - 1)
       ≫= Circle.serverRound env leagueId (GenerateRoute.startDate env)
            (Circle.padded (roster db leagueId))).

(** The date [d] is a Saturday, at 10:00:00.000 local time, on a later
    day than the one the generator ran on. *)
Definition SaturdayMorning (env : Env) (d : Z) : Prop :=
  JSDate.getDay (zone env) d = 6 /\
  JSDate.TimeWithinDay (JSDate.LocalTime (zone env) d) = JSDate.MakeTime 10 0 0 0 /\
  localDay env (now env) < localDay env d.

(** * Facts about the Date model *)
Module DateFacts.
Import JSDate.

(** The quotient and remainder facts of a division by a constant. *)
Ltac euclid a b :=
  pose proof (Z.div_mod a b ltac:(lia));
  pose proof (Z.mod_pos_bound a b ltac:(lia)).

Lemma Day_bounds t : msPerDay * Day t <= t < msPerDay * (Day t + 1).
Proof.
  unfold Day, msPerDay.
  pose proof (Z.mod_pos_bound t 86400000).
  pose proof (Z.div_mod t 86400000). lia.
Qed.

(** A year starts within two days of its place on the mean-year scale
    of 146097 days per 400 years. *)
Lemma DayFromYear_mean y :
  -600 <= 400 * DayFromYear y - 146097 * (y - 1970) <= 600.
Proof.
  unfold DayFromYear.
  euclid (y - 1969) 4. euclid (y - 1901) 100. euclid (y - 1601) 400. lia.
Qed.

(** [YearFromTime] meets its ECMAScript definition: it is the largest
    year that starts at or before [t]. *)
Lemma YearFromTime_spec t :
  TimeFromYear (YearFromTime t) <= t < TimeFromYear (YearFromTime t + 1).
Proof.
  pose proof (Day_bounds t) as Hd.
  unfold TimeFromYear, YearFromTime.
  set (d := Day t) in *. clearbody d.
  set (y := 1970 + d * 400 / 146097).
  assert (Hy : 146097 * (y - 1970) <= d * 400 < 146097 * (y - 1970) + 146097).
  { unfold y. pose proof (Z.mod_pos_bound (d * 400) 146097).
    pose proof (Z.div_mod (d * 400) 146097). lia. }
  clearbody y.
  pose proof (DayFromYear_mean (y - 1)). pose proof (DayFromYear_mean (y + 1 + 1)).
  unfold msPerDay in *. repeat case_match; rewrite ?Z.sub_add; lia.
Qed.

Lemma DayFromYear_succ y : DayFromYear (y + 1) = DayFromYear y + DaysInYear y.
Proof.
  unfold DayFromYear, DaysInYear.
  euclid (y - 1969) 4. euclid (y - 1901) 100. euclid (y - 1601) 400.
  euclid (y + 1 - 1969) 4. euclid (y + 1 - 1901) 100. euclid (y + 1 - 1601) 400.
  euclid y 4. euclid y 100. euclid y 400.
  repeat case_match; lia.
Qed.

Lemma DayWithinYear_range t :
  0 <= DayWithinYear t < DaysInYear (YearFromTime t).
Proof.
  pose proof (YearFromTime_spec t) as H. pose proof (Day_bounds t) as Hd.
  unfold DayWithinYear, TimeFromYear in *.
  rewrite DayFromYear_succ in H. unfold msPerDay in *. nia.
Qed.

Lemma MonthFromTime_range t : 0 <= MonthFromTime t <= 11.
Proof. unfold MonthFromTime. repeat case_match; lia. Qed.

Lemma DateFromTime_range t : 1 <= DateFromTime t <= 31.
Proof.
  pose proof (DayWithinYear_range t) as H.
  unfold DateFromTime, MonthFromTime, monthStart, InLeapYear, DaysInYear in *.
  repeat case_match; lia.
Qed.

(** Setting the day of the month to [getDate + k] moves the date by [k]
    whole days: the day overflow of [MakeDay] carries into the following
    months and years. *)
Lemma MakeDay_DateFromTime t k :
  MakeDay (YearFromTime t) (MonthFromTime t) (DateFromTime t + k) = Day t + k.
Proof.
  pose proof (MonthFromTime_range t) as Hm.
  unfold MakeDay.
  rewrite (Z.div_small (MonthFromTime t) 12), (Z.mod_small (MonthFromTime t) 12) by lia.
  rewrite Z.add_0_r.
  unfold DateFromTime, DayWithinYear, InLeapYear. lia.
Qed.

Lemma MakeDate_Day t k : MakeDate (Day t + k) (TimeWithinDay t) = t + k * msPerDay.
Proof.
  unfold MakeDate, TimeWithinDay, Day.
  pose proof (Z.div_mod t msPerDay). unfold msPerDay in *. lia.
Qed.

(** [setDate] to [getDate + k] gives the instant at which the local
    clock shows the local time of [tv] moved by [k] whole days. *)
Lemma setDate_getDate z tv k :
  setDate z tv (getDate z tv + k) = UTC z (LocalTime z tv + k * msPerDay).
Proof.
  unfold setDate, getDate. rewrite MakeDay_DateFromTime.
  apply (f_equal (UTC z)). apply MakeDate_Day.
Qed.

Lemma setHours_eq z tv h m s ms :
  setHours z tv h m s ms = UTC z (MakeDate (Day (LocalTime z tv)) (MakeTime h m s ms)).
Proof. reflexivity. Qed.

Lemma Day_add_days t k : Day (t + k * msPerDay) = Day t + k.
Proof. unfold Day. rewrite Z.div_add by (unfold msPerDay; lia). reflexivity. Qed.

Lemma TimeWithinDay_add_days t k : TimeWithinDay (t + k * msPerDay) = TimeWithinDay t.
Proof. unfold TimeWithinDay. apply Z.mod_add. unfold msPerDay; lia. Qed.

Lemma Day_le t1 t2 : t1 <= t2 -> Day t1 <= Day t2.
Proof. intros H. unfold Day. apply Z.div_le_mono; [unfold msPerDay; lia|done]. Qed.

Lemma Day_MakeDate day time :
  0 <= time < msPerDay -> Day (MakeDate day time) = day.
Proof.
  intros H. unfold Day, MakeDate. symmetry. apply (Z.div_unique _ _ _ time); lia.
Qed.

Lemma TimeWithinDay_MakeDate day time :
  0 <= time < msPerDay -> TimeWithinDay (MakeDate day time) = time.
Proof.
  intros H. unfold TimeWithinDay, MakeDate. symmetry. apply (Z.mod_unique _ _ day); lia.
Qed.

Lemma LocalTime_eq z t : LocalTime z t = t + LocalTZA z t true.
Proof. reflexivity. Qed.

Lemma UTC_eq z t : UTC z t = t - LocalTZA z t false.
Proof. reflexivity. Qed.

(** ** The zone *)

Lemma bounded_spec o : Zone.bounded o = true <-> - msPerDay < o < msPerDay.
Proof. unfold Zone.bounded. rewrite andb_true_iff, !Z.ltb_lt. done. Qed.

Lemma increasing_cons a o cs :
  Zone.increasing ((a, o) :: cs) = true ->
  Zone.increasing cs = true /\ Forall (fun c => a < c.1) cs.
Proof.
  revert a o. induction cs as [|[a' o'] cs IH]; intros a o H; [done|].
  simpl in H. apply andb_true_iff in H as [Ha%Z.ltb_lt H].
  split; [done|]. constructor; [done|].
  destruct (IH a' o' H) as [_ Hall]. eapply Forall_impl; [exact Hall|].
  simpl. intros; lia.
Qed.

Lemma offsetAt_bounds p cs t :
  - msPerDay < p < msPerDay -> Forall (fun c => - msPerDay < c.2 < msPerDay) cs ->
  - msPerDay < offsetAt p cs t < msPerDay.
Proof.
  intros Hp Hcs. revert p Hp. induction Hcs as [|[a o] cs Ho Hcs IH]; intros p Hp; simpl.
  - done.
  - destruct (t <? a); [done|]. by apply IH.
Qed.

Lemma offsetOfLocal_bounds p cs t :
  - msPerDay < p < msPerDay -> Forall (fun c => - msPerDay < c.2 < msPerDay) cs ->
  - msPerDay < offsetOfLocal p cs t < msPerDay.
Proof.
  intros Hp Hcs. revert p Hp. induction Hcs as [|[a o] cs Ho Hcs IH]; intros p Hp; simpl.
  - done.
  - destruct (t <? a + Z.max p o); [done|]. by apply IH.
Qed.

Lemma zone_ok z :
  - msPerDay < Zone.base z < msPerDay /\
  Forall (fun c => - msPerDay < c.2 < msPerDay) (Zone.changes z) /\
  Zone.increasing (Zone.changes z) = true.
Proof.
  pose proof (Zone.wf z) as H. unfold Zone.ok in H.
  apply andb_true_iff in H as [[Hb Hall]%andb_true_iff Hinc].
  split; [by apply bounded_spec|]. split; [|done].
  rewrite forallb_forall in Hall. apply Forall_forall.
  intros c Hc. apply bounded_spec, Hall, list_elem_of_In, Hc.
Qed.

(** Every offset of a zone is less than a day. *)
Lemma LocalTZA_bounds z t isUTC : - msPerDay < LocalTZA z t isUTC < msPerDay.
Proof.
  destruct (zone_ok z) as (Hb & Hall & _). unfold LocalTZA.
  destruct isUTC; [by apply offsetAt_bounds|by apply offsetOfLocal_bounds].
Qed.

Lemma UTC_bounds z t : t - msPerDay < UTC z t < t + msPerDay.
Proof. pose proof (LocalTZA_bounds z t false). rewrite UTC_eq. lia. Qed.

Lemma LocalTime_bounds z t : t - msPerDay < LocalTime z t < t + msPerDay.
Proof. pose proof (LocalTZA_bounds z t true). rewrite LocalTime_eq. lia. Qed.

(** The instant a local time is read as is not before the changes
    passed over on the way. *)
Lemma offsetOfLocal_after lo p cs t :
  lo <= t - p -> Forall (fun c => lo <= c.1) cs -> lo <= t - offsetOfLocal p cs t.
Proof.
  intros Hp Hcs. revert p Hp. induction Hcs as [|[a o] cs Ha Hcs IH]; intros p Hp; simpl.
  - done.
  - destruct (Z.ltb_spec t (a + Z.max p o)); [done|]. apply IH. simpl in Ha. lia.
Qed.

(** A local time that no clock change skips is the local time of the
    instant it is read as. *)
Lemma offsetAt_offsetOfLocal p cs t :
  Zone.increasing cs = true -> skipped p cs t = false ->
  offsetAt p cs (t - offsetOfLocal p cs t) = offsetOfLocal p cs t.
Proof.
  revert p. induction cs as [|[a o] cs IH]; intros p Hinc Hskip; simpl; [done|].
  simpl in Hskip. apply increasing_cons in Hinc as [Hinc Hall].
  destruct (Z.ltb_spec t (a + p)) as [Hlt|Hge].
  - destruct (Z.ltb_spec t (a + Z.max p o)); [|lia].
    destruct (Z.ltb_spec (t - p) a); [done|lia].
  - destruct (Z.ltb_spec t (a + o)); [done|].
    destruct (Z.ltb_spec t (a + Z.max p o)); [lia|].
    assert (a <= t - offsetOfLocal o cs t) as Hafter.
    { apply offsetOfLocal_after; [lia|]. eapply Forall_impl; [exact Hall|].
      simpl. intros; lia. }
    destruct (Z.ltb_spec (t - offsetOfLocal o cs t) a); [lia|]. by apply IH.
Qed.

Lemma LocalTime_UTC z t :
  skipped (Zone.base z) (Zone.changes z) t = false -> LocalTime z (UTC z t) = t.
Proof.
  intros Hskip. destruct (zone_ok z) as (_ & _ & Hinc).
  rewrite LocalTime_eq, UTC_eq. unfold LocalTZA.
  rewrite offsetAt_offsetOfLocal by done. lia.
Qed.

(** ** Saturdays *)

Lemma hasSaturday_complete s e t :
  s <= t < e -> WeekDay t = 6 -> hasSaturday s e = true.
Proof.
  intros Ht Hsat. unfold hasSaturday, WeekDay in *. apply Z.leb_le.
  pose proof (Day_le s t ltac:(lia)). pose proof (Day_le t (e - 1) ltac:(lia)).
  euclid (Day s + 4) 7. euclid (Day t + 4) 7. lia.
Qed.

Lemma saturday_not_skipped p cs t :
  skipsSaturday p cs = false -> WeekDay t = 6 -> skipped p cs t = false.
Proof.
  revert p. induction cs as [|[a o] cs IH]; intros p Hno Hsat; simpl; [done|].
  simpl in Hno. apply orb_false_iff in Hno as [Hhere Hrest].
  destruct (Z.ltb_spec t (a + p)); [done|].
  destruct (Z.ltb_spec t (a + o)); [|by apply IH].
  rewrite (hasSaturday_complete (a + p) (a + o) t) in Hhere by (done || lia).
  destruct (Z.ltb_spec p o); [done|lia].
Qed.

(** A zone none of whose clock changes skips a time of a Saturday keeps
    its Saturdays. *)
Lemma noSaturdaySkipped_kept z : noSaturdaySkipped z = true -> SaturdayKept z.
Proof.
  intros H t Hsat. unfold noSaturdaySkipped in H. apply negb_true_iff in H.
  unfold keepsDay, onClock.
  rewrite (LocalTime_UTC z t) by (by apply saturday_not_skipped). done.
Qed.

End DateFacts.

(** * The generators compute the circle method *)
Module LoopFacts.
Import Circle.

Lemma index_of_nat {A} (l : list A) (i : nat) : index l (Z.of_nat i) = l !! i.
Proof.
  unfold index. destruct (Z.ltb_spec (Z.of_nat i) 0); [lia|].
  by rewrite Nat2Z.id.
Qed.

Lemma upto_of_nat (k : nat) : upto (Z.of_nat k) = Z.of_nat <$> seq 0 k.
Proof.
  unfold upto, seqZ. rewrite Nat2Z.id. apply list_fmap_ext.
  intros; lia.
Qed.

Lemma forEach_fmap {A B S} (g : A -> B) (body : B -> S -> Result S) xs s :
  forEach body (g <$> xs) s = forEach (fun x => body (g x)) xs s.
Proof.
  revert s. induction xs as [|x xs IH]; intros s; simpl; [done|].
  destruct (body (g x) s); simpl; auto.
Qed.

Lemma slice_all {A} (l : list A) : slice l 0 None = l.
Proof.
  unfold slice, len. simpl.
  rewrite Z.min_l by lia. simpl.
  rewrite Z.sub_0_r, Nat2Z.id. apply firstn_all.
Qed.

Lemma slice_tail {A} (x : A) (l : list A) : slice (x :: l) 1 None = l.
Proof.
  unfold slice, len. simpl length.
  destruct (Z.ltb_spec 1 0); [lia|].
  rewrite Z.min_l by lia. simpl drop.
  replace (Z.to_nat (Z.of_nat (S (length l)) - 1)) with (length l) by lia.
  apply firstn_all.
Qed.

Lemma slice_last {A} (l : list A) :
  slice l (-1) None = drop (length l - 1) l.
Proof.
  unfold slice, len. simpl.
  destruct l as [|x l]; [done|].
  rewrite Z.max_l by (simpl length; lia).
  replace (Z.to_nat (Z.of_nat (length (x :: l)) + -1)) with (length (x :: l) - 1)%nat by lia.
  apply take_ge. rewrite length_drop. lia.
Qed.

Lemma slice_init {A} (x : A) (l : list A) :
  slice (x :: l) 1 (Some (-1)) = take (length l - 1) l.
Proof.
  unfold slice, len. simpl length.
  destruct (Z.ltb_spec 1 0); [lia|]. destruct (Z.ltb_spec (-1) 0); [|lia].
  rewrite Z.min_l by lia. simpl drop.
  f_equal. lia.
Qed.

Lemma preview_rotate l : l ≠ [] -> FixtureGenerator.rotate l = Ok (rot1 l).
Proof.
  destruct l as [|t0 tl]; [done|]. intros _.
  unfold FixtureGenerator.rotate. 
  rewrite slice_tail, slice_last, slice_init. reflexivity.
Qed.

Lemma server_rotate l : l ≠ [] -> GenerateRoute.rotate l = Ok (rot1 l).
Proof.
  destruct l as [|t0 tl]; [done|]. intros _.
  unfold GenerateRoute.rotate. 
  rewrite slice_tail, slice_last, slice_init. reflexivity.
Qed.

Lemma length_rot1 l : length (rot1 l) = length l.
Proof.
  destruct l as [|t0 tl]; [done|]. simpl.
  rewrite length_app, length_drop, length_take. lia.
Qed.

Lemma length_rotation_at items r : length (rotation_at items r) = length items.
Proof.
  induction r as [|r IH]; [done|]. unfold rotation_at in *. simpl.
  by rewrite length_rot1.
Qed.


Lemma preview_slot n round date rotation (i : nat) schedule :
  n = len rotation -> (i < length rotation)%nat ->
  FixtureGenerator.slot n round date rotation (Z.of_nat i) schedule
  = Ok (schedule ++ (previewEntry round date <$> option_list (pairAt rotation i))).
Proof.
  intros -> Hi. unfold FixtureGenerator.slot, pairAt.
  replace (len rotation - 1 - Z.of_nat i) with (Z.of_nat (length rotation - 1 - i)) by (unfold len; lia).
  rewrite !index_of_nat.
  destruct (lookup_lt_is_Some_2 rotation i Hi) as [t1 ->].
  destruct (lookup_lt_is_Some_2 rotation (length rotation - 1 - i)) as [t2 ->]; [lia|].
  simpl. unfold isBye.
  destruct (String.eqb (Team.id t1) "BYE"); simpl; [by rewrite app_nil_r|].
  destruct (String.eqb (Team.id t2) "BYE"); simpl; [by rewrite app_nil_r|].
  reflexivity.
Qed.

Lemma preview_slots n round date rotation (ix : list nat) schedule :
  n = len rotation -> Forall (fun i => (i < length rotation)%nat) ix ->
  forEach (fun i => FixtureGenerator.slot n round date rotation (Z.of_nat i)) ix schedule
  = Ok (schedule ++ (previewEntry round date <$> omap (pairAt rotation) ix)).
Proof.
  intros Hn Hix. revert schedule.
  induction Hix as [|i ix Hi Hix IH]; intros schedule; simpl.
  - by rewrite app_nil_r.
  - rewrite preview_slot by done. simpl. rewrite IH.
    destruct (pairAt rotation i); simpl; by rewrite <- ?app_assoc.
Qed.

Lemma uptoHalf_even (h : nat) : uptoHalf (Z.of_nat (2 * h)) = Z.of_nat <$> seq 0 h.
Proof.
  unfold uptoHalf. replace ((Z.of_nat (2 * h) + 1) / 2) with (Z.of_nat h).
  - apply upto_of_nat.
  - apply Z.div_unique with 1; lia.
Qed.

Lemma half_even (h : nat) : (2 * h / 2 = h)%nat.
Proof. rewrite Nat.mul_comm. apply Nat.div_mul. lia. Qed.

Lemma preview_round n round date rotation (h : nat) schedule :
  n = len rotation -> length rotation = (2 * h)%nat ->
  forEach (FixtureGenerator.slot n round date rotation) (uptoHalf n) schedule
  = Ok (schedule ++ (previewEntry round date <$> matches rotation)).
Proof.
  intros -> Hh. unfold len, matches. rewrite Hh, uptoHalf_even, half_even.
  rewrite forEach_fmap. rewrite <- Hh. apply preview_slots; [done|].
  apply Forall_forall. intros i Hi%elem_of_seq. lia.
Qed.


Lemma preview_rounds env start items (h : nat) (k a : nat) schedule :
  length items = (2 * h)%nat -> (1 <= h)%nat ->
  forEach (FixtureGenerator.oneRound env (len items) start) (Z.of_nat <$> seq a k)
          (rotation_at items a, schedule)
  = Ok (rotation_at items (a + k), schedule ++ (seq a k ≫= previewRound env start items)).
Proof.
  intros Hh Hh1. revert a schedule.
  induction k as [|k IH]; intros a schedule; simpl.
  - by rewrite Nat.add_0_r, app_nil_r.
  - rewrite (preview_round _ _ _ _ h) by (by unfold len; rewrite ?length_rotation_at).
    simpl. rewrite preview_rotate.
    2:{ intros E. apply (f_equal length) in E. rewrite length_rotation_at in E. simpl in E. lia. }
    simpl. change (rot1 (rotation_at items a)) with (rotation_at items (S a)).
    rewrite IH. rewrite <- app_assoc. do 3 f_equal. lia.
Qed.

Lemma isOdd_odd {A} (l : list A) : (Z.rem (len l) 2 =? 1) = Nat.odd (length l).
Proof.
  unfold len. rewrite Z.rem_mod_nonneg by lia.
  destruct (Nat.odd (length l)) eqn:E.
  - apply Nat.odd_spec in E. destruct E as [k E]. rewrite E.
    apply Z.eqb_eq. symmetry. apply (Z.mod_unique _ _ (Z.of_nat k)); lia.
  - apply Z.eqb_neq. assert (Nat.even (length l) = true) as E'.
    { rewrite <- Nat.negb_odd, E. done. }
    apply Nat.even_spec in E'. destruct E' as [k E']. rewrite E'.
    rewrite <- (Z.mod_unique (Z.of_nat (2 * k)) 2 (Z.of_nat k) 0); lia.
Qed.

Lemma length_padded teams : exists h : nat,
  length (padded teams) = (2 * h)%nat /\
  (h = (length teams + 1) / 2)%nat.
Proof.
  unfold padded. destruct (Nat.odd (length teams)) eqn:E.
  - apply Nat.odd_spec in E. destruct E as [k E]. exists (S k).
    rewrite length_app, E. simpl length. split; [lia|].
    apply (Nat.div_unique _ _ _ 0); lia.
  - assert (Nat.even (length teams) = true) as E'.
    { rewrite <- Nat.negb_odd, E. done. }
    apply Nat.even_spec in E'. destruct E' as [k E']. exists k. split; [done|].
    rewrite E'. apply (Nat.div_unique _ _ _ 1); lia.
Qed.

Lemma preview_schedule env teams :
  (2 <= length teams)%nat ->
  FixtureGenerator.generateRoundRobinPreview env teams
  = Ok (seq 0 (length (padded teams) - 1)
          ≫= previewRound env (FixtureGenerator.startDate env) (padded teams)).
Proof.
  intros Hn. unfold FixtureGenerator.generateRoundRobinPreview.
  destruct (Z.ltb_spec (len teams) 2) as [H|_]; [unfold len in H; lia|].
  rewrite isOdd_odd. fold BYE. fold (padded teams).
  destruct (length_padded teams) as (h & Hh & Hh').
  assert (1 <= h)%nat.
  { subst h. change 1%nat with (2 / 2)%nat. apply Nat.Div0.div_le_mono. lia. }
  rewrite slice_all.
  replace (len (padded teams) - 1) with (Z.of_nat (length (padded teams) - 1)) by (unfold len; lia).
  rewrite upto_of_nat.
  change (padded teams) with (rotation_at (padded teams) 0) at 3.
  rewrite (preview_rounds _ _ _ h) by done. simpl. reflexivity.
Qed.


Lemma stored_app uuid base ds1 ds2 :
  stored uuid base (ds1 ++ ds2)
  = stored uuid base ds1 ++ stored uuid (base + length ds1) ds2.
Proof.
  revert base. induction ds1 as [|d ds1 IH]; intros base; simpl.
  - by rewrite Nat.add_0_r.
  - rewrite IH. do 3 f_equal. lia.
Qed.

Lemma stored_data uuid base ds : Fixture.data <$> stored uuid base ds = ds.
Proof. revert base. induction ds as [|d ds IH]; intros base; simpl; by rewrite ?IH. Qed.

Lemma length_stored uuid base ds : length (stored uuid base ds) = length ds.
Proof. revert base. induction ds as [|d ds IH]; intros base; simpl; by rewrite ?IH. Qed.

Lemma server_slot n rotation (i : nat) pairs :
  n = len rotation -> (i < length rotation)%nat ->
  GenerateRoute.slot n rotation (Z.of_nat i) pairs
  = Ok (pairs ++ (serverPair <$> option_list (pairAt rotation i))).
Proof.
  intros -> Hi. unfold GenerateRoute.slot, pairAt.
  replace (len rotation - 1 - Z.of_nat i) with (Z.of_nat (length rotation - 1 - i)) by (unfold len; lia).
  rewrite !index_of_nat.
  destruct (lookup_lt_is_Some_2 rotation i Hi) as [t1 ->].
  destruct (lookup_lt_is_Some_2 rotation (length rotation - 1 - i)) as [t2 ->]; [lia|].
  simpl. unfold isBye.
  destruct (String.eqb (Team.id t1) "BYE"); simpl; [by rewrite app_nil_r|].
  destruct (String.eqb (Team.id t2) "BYE"); simpl; [by rewrite app_nil_r|].
  reflexivity.
Qed.

Lemma server_slots n rotation (ix : list nat) pairs :
  n = len rotation -> Forall (fun i => (i < length rotation)%nat) ix ->
  forEach (fun i => GenerateRoute.slot n rotation (Z.of_nat i)) ix pairs
  = Ok (pairs ++ (serverPair <$> omap (pairAt rotation) ix)).
Proof.
  intros Hn Hix. revert pairs.
  induction Hix as [|i ix Hi Hix IH]; intros pairs; simpl.
  - by rewrite app_nil_r.
  - rewrite server_slot by done. simpl. rewrite IH.
    destruct (pairAt rotation i); simpl; by rewrite <- ?app_assoc.
Qed.

Lemma server_pairs n rotation (h : nat) :
  n = len rotation -> length rotation = (2 * h)%nat ->
  forEach (GenerateRoute.slot n rotation) (uptoHalf n) []
  = Ok (serverPair <$> matches rotation).
Proof.
  intros -> Hh. unfold len, matches. rewrite Hh, uptoHalf_even, half_even.
  rewrite forEach_fmap. rewrite <- Hh.
  rewrite server_slots; [done|done|].
  apply Forall_forall. intros i Hi%elem_of_seq. lia.
Qed.

Lemma grown_nil db : grown db [] = db.
Proof. unfold grown. rewrite app_nil_r, Nat.add_0_r. by destruct db. Qed.

Lemma server_persist leagueId date pairs created db :
  fold_left (GenerateRoute.persist leagueId date) pairs (created, db)
  = let rows := stored (Db.gen_random_uuid db) (Db.drawn db)
                  (pairData leagueId date <$> pairs) in
    (created ++ rows, grown db rows).
Proof.
  revert created db. induction pairs as [|p pairs IH]; intros created db; simpl.
  - by rewrite app_nil_r, grown_nil.
  - rewrite IH. unfold grown. simpl. rewrite <- !app_assoc. simpl.
    f_equal. f_equal. rewrite !length_stored. simpl.
    rewrite ?length_stored, ?length_fmap. lia.
Qed.

Lemma uuid_grown db rows : Db.gen_random_uuid (grown db rows) = Db.gen_random_uuid db.
Proof. reflexivity. Qed.

Lemma drawn_grown db rows : Db.drawn (grown db rows) = (Db.drawn db + length rows)%nat.
Proof. reflexivity. Qed.

Lemma grown_app db rows1 rows2 : grown (grown db rows1) rows2 = grown db (rows1 ++ rows2).
Proof.
  unfold grown. cbn [Db.team_findMany Db.fixtures Db.gen_random_uuid Db.drawn].
  rewrite <- app_assoc, length_app. f_equal. lia.
Qed.

Lemma server_oneRound env leagueId start items (h a : nat) created db :
  length items = (2 * h)%nat -> (1 <= h)%nat ->
  GenerateRoute.oneRound env leagueId (len items) start
    (GenerateRoute.Running (GenerateRoute.Build_State (rotation_at items a) created db))
    (Z.of_nat a)
  = let rows := stored (Db.gen_random_uuid db) (Db.drawn db)
                  (serverRound env leagueId start items a) in
    GenerateRoute.Running
      (GenerateRoute.Build_State (rotation_at items (S a)) (created ++ rows)
         (grown db rows)).
Proof.
  intros Hh Hh1. unfold GenerateRoute.oneRound.
  cbn [GenerateRoute.st_rotation GenerateRoute.st_created GenerateRoute.st_db].
  rewrite (server_pairs _ _ h) by (by unfold len; rewrite ?length_rotation_at).
  rewrite server_persist. cbv zeta. rewrite server_rotate.
  2:{ intros E. apply (f_equal length) in E. rewrite length_rotation_at in E. simpl in E. lia. }
  unfold serverRound. rewrite <- list_fmap_compose. reflexivity.
Qed.

Lemma server_rounds env leagueId start items (h : nat) (k a : nat) created db :
  length items = (2 * h)%nat -> (1 <= h)%nat ->
  fold_left (GenerateRoute.oneRound env leagueId (len items) start) (Z.of_nat <$> seq a k)
    (GenerateRoute.Running
       (GenerateRoute.Build_State (rotation_at items a) created db))
  = let rows := stored (Db.gen_random_uuid db) (Db.drawn db)
                  (seq a k ≫= serverRound env leagueId start items) in
    GenerateRoute.Running
      (GenerateRoute.Build_State (rotation_at items (a + k)) (created ++ rows)
         (grown db rows)).
Proof.
  intros Hh Hh1. revert a created db.
  induction k as [|k IH]; intros a created db.
  - simpl. by rewrite Nat.add_0_r, !app_nil_r, grown_nil.
  - change (seq a (S k)) with (a :: seq (S a) k). rewrite fmap_cons, bind_cons.
    cbn [fold_left]. rewrite (server_oneRound _ _ _ _ h) by done. cbv zeta.
    rewrite IH. cbv zeta. rewrite grown_app, stored_app, <- app_assoc.
    rewrite uuid_grown, drawn_grown, !length_stored. by rewrite Nat.add_succ_r.
Qed.

Lemma fmap_team_eta (teams : list Team.t) :
  (fun t => Team.mk (Team.id t) (Team.name t)) <$> teams = teams.
Proof.
  induction teams as [|[i nm] teams IH]; csimpl; [done|]. by rewrite IH.
Qed.

(** The handler on a body whose [leagueId] is truthy, for a league of at
    least two teams. *)
Lemma server_schedule env req (leagueId : JsonValue) db :
  body_leagueId req = Some leagueId -> truthy (Some leagueId) = true ->
  (2 <= length (Db.team_findMany db leagueId))%nat ->
  let items := padded (Db.team_findMany db leagueId) in
  let rows := stored (Db.gen_random_uuid db) (Db.drawn db)
                (seq 0 (length items - 1)
                   ≫= serverRound env leagueId (GenerateRoute.startDate env) items) in
  GenerateRoute.POST env req db = (Json rows, grown db rows).
Proof.
  intros Hreq Hid Hn items rows. unfold GenerateRoute.POST.
  destruct req as [msg|[]]; try discriminate Hreq.
  cbn [req_json get_leagueId]. simpl in Hreq. rewrite Hreq, Hid. cbn [negb].
  destruct (Z.ltb_spec (len (Db.team_findMany db leagueId)) 2) as [H|_];
    [unfold len in H; lia|].
  rewrite fmap_team_eta, isOdd_odd. fold BYE.
  fold (padded (Db.team_findMany db leagueId)). fold items.
  destruct (length_padded (Db.team_findMany db leagueId)) as (h & Hh & Hh').
  fold items in Hh.
  assert (1 <= h)%nat.
  { subst h. change 1%nat with (2 / 2)%nat. apply Nat.Div0.div_le_mono. lia. }
  rewrite slice_all.
  replace (len items - 1) with (Z.of_nat (length items - 1)) by (unfold len; lia).
  rewrite upto_of_nat.
  change items with (rotation_at items 0) at 3.
  rewrite (server_rounds _ _ _ _ h) by done. simpl. reflexivity.
Qed.

(** The request of the component carries the league as a string. *)
Lemma generateRequest_leagueId (leagueId : string) :
  body_leagueId (generateRequest leagueId) = Some (JStr leagueId).
Proof. reflexivity. Qed.

Lemma truthy_string (leagueId : string) :
  leagueId <> EmptyString -> truthy (Some (JStr leagueId)) = true.
Proof. intros H. simpl. by apply negb_true_iff, String.eqb_neq. Qed.

Lemma server_generate env (leagueId : string) db :
  leagueId <> EmptyString ->
  (2 <= length (Db.team_findMany db leagueId))%nat ->
  let items := padded (Db.team_findMany db leagueId) in
  let rows := stored (Db.gen_random_uuid db) (Db.drawn db)
                (seq 0 (length items - 1)
                   ≫= serverRound env leagueId (GenerateRoute.startDate env) items) in
  GenerateRoute.POST env (generateRequest leagueId) db = (Json rows, grown db rows).
Proof.
  intros Hid Hn. apply server_schedule; [done|by apply truthy_string|done].
Qed.

End LoopFacts.

(** * Counting in lists built by [omap] and bind *)
Module ListFacts.
Local Open Scope nat_scope.
Section Counting.
Context {A B : Type}.
Implicit Types (l : list A) (f : A -> option B).

Lemma filter_omap_nil (P : B -> Prop) `{!forall b, Decision (P b)} f l :
  (forall a b, a ∈ l -> f a = Some b -> ~ P b) -> filter P (omap f l) = [].
Proof.
  induction l as [|a l IH]; intros Hno; csimpl; [done|].
  destruct (f a) as [b|] eqn:Hfa.
  - rewrite filter_cons_False by (eapply Hno; [left|done]).
    apply IH. intros a' b' Ha'. apply Hno. by right.
  - apply IH. intros a' b' Ha'. apply Hno. by right.
Qed.

Lemma length_filter_omap_unique (P : B -> Prop) `{!forall b, Decision (P b)}
    f l (a0 : A) (b0 : B) :
  NoDup l -> a0 ∈ l -> f a0 = Some b0 -> P b0 ->
  (forall a b, a ∈ l -> f a = Some b -> P b -> a = a0) ->
  length (filter P (omap f l)) = 1%nat.
Proof.
  intros Hnd. induction Hnd as [|a l Ha Hnd IH]; intros Hin Hf0 HP Huniq.
  { by apply elem_of_nil in Hin. }
  csimpl. apply elem_of_cons in Hin as [<-|Hin].
  - rewrite Hf0. rewrite filter_cons_True by done. simpl. f_equal.
    rewrite filter_omap_nil; [done|].
    intros a b Hal Hfa HPb. assert (a = a0) by (eapply Huniq; [by right|done..]).
    by subst.
  - assert (Hne : a <> a0) by (by intros ->).
    destruct (f a) as [b|] eqn:Hfa.
    + rewrite filter_cons_False.
      * apply IH; [done..|]. intros a' b' Ha'. apply Huniq. by right.
      * intros HPb. apply Hne. eapply Huniq; [left|done..].
    + apply IH; [done..|]. intros a' b' Ha'. apply Huniq. by right.
Qed.

Lemma length_omap_all f l :
  (forall a, a ∈ l -> is_Some (f a)) -> length (omap f l) = length l.
Proof.
  induction l as [|a l IH]; intros Hall; csimpl; [done|].
  destruct (Hall a) as [b ->]; [left|]. simpl. f_equal.
  apply IH. intros a' Ha'. apply Hall. by right.
Qed.

Lemma length_omap_but_one f l (a0 : A) :
  NoDup l -> a0 ∈ l -> (forall a, a ∈ l -> f a = None <-> a = a0) ->
  S (length (omap f l)) = length l.
Proof.
  intros Hnd. induction Hnd as [|a l Ha Hnd IH]; intros Hin Hnone.
  { by apply elem_of_nil in Hin. }
  csimpl. apply elem_of_cons in Hin as [<-|Hin].
  - rewrite (proj2 (Hnone a0 ltac:(left)) eq_refl). f_equal.
    apply length_omap_all. intros a Hal.
    destruct (f a) eqn:Hfa; [done|].
    apply Hnone in Hfa; [by subst|by right].
  - assert (Hne : a <> a0) by (by intros ->).
    destruct (f a) as [b|] eqn:Hfa.
    + simpl. f_equal. apply IH; [done|]. intros a' Ha'. apply Hnone. by right.
    + apply Hnone in Hfa; [done|left].
Qed.

Lemma omap_fmap {C} (g : C -> A) f (l : list C) :
  omap f (g <$> l) = omap (fun c => f (g c)) l.
Proof. induction l as [|c l IH]; csimpl; [done|]. by rewrite IH. Qed.
End Counting.

Lemma bind_omap_pairs {A B C} (g : A -> B -> option C) (l : list A) (ix : list B) :
  l ≫= (fun r => omap (g r) ix)
  = omap (fun s => g s.1 s.2) (l ≫= fun r => pair r <$> ix).
Proof.
  induction l as [|a l IH]; csimpl; [done|].
  rewrite omap_app, IH, omap_fmap. done.
Qed.

Lemma filter_bind {A B} (P : B -> Prop) `{!forall b, Decision (P b)}
    (f : A -> list B) (l : list A) :
  filter P (l ≫= f) = l ≫= (fun x => filter P (f x)).
Proof.
  induction l as [|a l IH]; csimpl; [done|]. by rewrite filter_app, IH.
Qed.

Lemma length_bind_const {A B} (f : A -> list B) (l : list A) (c : nat) :
  (forall x, x ∈ l -> length (f x) = c) -> length (l ≫= f) = (length l * c)%nat.
Proof.
  induction l as [|a l IH]; intros Hc; csimpl; [done|].
  rewrite length_app, Hc by left. f_equal. apply IH. intros x Hx. apply Hc. by right.
Qed.

Lemma NoDup_pairs {A B} (l : list A) (ix : list B) :
  NoDup l -> NoDup ix -> NoDup (l ≫= fun r => pair r <$> ix).
Proof.
  intros Hl Hix. apply NoDup_bind; [| |done].
  - intros r1 r2 [r i] _ _ (i1 & E1 & _)%list_elem_of_fmap (i2 & E2 & _)%list_elem_of_fmap.
    congruence.
  - intros r _. apply NoDup_fmap_2; [|done]. intros i1 i2. congruence.
Qed.

Lemma elem_of_pairs {A B} (l : list A) (ix : list B) r i :
  (r, i) ∈ (l ≫= fun r => pair r <$> ix) <-> r ∈ l /\ i ∈ ix.
Proof.
  rewrite list_elem_of_bind. split.
  - intros (r' & (i' & E & Hi)%list_elem_of_fmap & Hr). by simplify_eq.
  - intros [Hr Hi]. exists r. split; [|done]. apply list_elem_of_fmap. eauto.
Qed.

End ListFacts.

(** * Seats: where the rotation puts each item *)
Module SeatFacts.
Import Circle LoopFacts.
Local Open Scope nat_scope.

Lemma src_spec m r p :
  (p = 0 /\ src m r p = 0 \/
   0 < p /\ p <= r /\ src m r p = m - r + p \/
   r < p /\ 0 < p /\ src m r p = p - r)%nat.
Proof.
  unfold src. destruct (Nat.eqb_spec p 0); [lia|].
  destruct (Nat.leb_spec p r); lia.
Qed.

(** Replaces every seat computation by its three linear cases. *)
Ltac src_cases :=
  repeat match goal with
  | |- context [src ?m ?r ?p] =>
      let v := fresh "s" in let E := fresh "E" in let Hs := fresh "Hs" in
      pose proof (src_spec m r p) as Hs; remember (src m r p) as v eqn:E in *; clear E
  | H : context [src ?m ?r ?p] |- _ =>
      let v := fresh "s" in let E := fresh "E" in let Hs := fresh "Hs" in
      pose proof (src_spec m r p) as Hs; remember (src m r p) as v eqn:E in *; clear E
  end; lia.

Lemma src_compose m r p :
  (S r <= m -> p <= m -> src m r (src m 1 p) = src m (S r) p)%nat.
Proof. intros. src_cases. Qed.

Lemma src_range m r p : (r < m -> p <= m -> src m r p <= m)%nat.
Proof. intros. src_cases. Qed.

Lemma src_inj m r p q :
  (r < m -> p <= m -> q <= m -> src m r p = src m r q -> p = q)%nat.
Proof. intros. src_cases. Qed.

Lemma slot_unique m h r i r' i' :
  (m + 1 = 2 * h -> r < m -> r' < m -> i < h -> i' < h ->
   (src m r i = src m r' i' /\ src m r (m - i) = src m r' (m - i')) \/
   (src m r i = src m r' (m - i') /\ src m r (m - i) = src m r' i') ->
   r = r' /\ i = i')%nat.
Proof. intros. src_cases. Qed.

Lemma slot_exists m h a b :
  (m + 1 = 2 * h -> a < b -> b <= m ->
   exists r i, r < m /\ i < h /\
     ((src m r i = a /\ src m r (m - i) = b) \/
      (src m r i = b /\ src m r (m - i) = a)))%nat.
Proof.
  intros Hm Hab Hb.
  destruct (Nat.eq_dec a 0) as [->|Ha].
  { exists (m - b)%nat, 0%nat. src_cases. }
  destruct (Nat.Even_or_Odd (a + b)) as [[k Hk]|[k Hk]].
  - exists (m - k)%nat, (k - a)%nat. src_cases.
  - destruct (le_lt_dec (a + b) m).
    + exists (h - 1 - k)%nat, (a + (h - 1 - k))%nat. src_cases.
    + exists (m + h - 1 - k)%nat, (a + (m + h - 1 - k) - m)%nat. src_cases.
Qed.

(** the seat of the last item (the bye of an odd roster) *)
Lemma bye_slot m h r :
  (m + 1 = 2 * h -> r < m ->
   exists i0, i0 < h /\ forall i, i < h ->
     (src m r i = m \/ src m r (m - i) = m) <-> i = i0)%nat.
Proof.
  intros Hm Hr.
  destruct (Nat.eq_dec r 0) as [->|Hr0].
  { exists 0%nat. split; [lia|]. intros. src_cases. }
  destruct (le_lt_dec h r).
  - exists (m - r)%nat. split; [lia|]. intros. src_cases.
  - exists r. split; [lia|]. intros. src_cases.
Qed.

Lemma lookup_rot1 items m p :
  length items = S m -> (p <= m)%nat -> rot1 items !! p = items !! src m 1 p.
Proof.
  intros Hlen Hp. destruct items as [|t0 tl]; [done|].
  simpl in Hlen. injection Hlen as Hlen. unfold rot1. rewrite Hlen.
  destruct p as [|p]; [done|]. simpl.
  destruct p as [|p].
  - assert (src m 1 1 = S (m - 1)) as -> by src_cases.
    rewrite lookup_app_l by (rewrite length_drop; lia).
    rewrite lookup_drop. simpl. f_equal. lia.
  - assert (src m 1 (S (S p)) = S p) as -> by src_cases.
    rewrite lookup_app_r by (rewrite length_drop; lia).
    rewrite length_drop, Hlen.
    rewrite lookup_take_lt by lia.
    simpl. f_equal. lia.
Qed.

Lemma lookup_rotation_at items m r p :
  length items = S m -> (r < m)%nat -> (p <= m)%nat ->
  rotation_at items r !! p = items !! src m r p.
Proof.
  intros Hlen. revert p. induction r as [|r IH]; intros p Hr Hp.
  - unfold rotation_at. simpl. f_equal. src_cases.
  - change (rotation_at items (S r)) with (rot1 (rotation_at items r)).
    rewrite (lookup_rot1 _ m) by (by rewrite ?length_rotation_at).
    rewrite IH; [|lia|src_cases].
    f_equal. apply src_compose; lia.
Qed.

End SeatFacts.

(** * The schedule of the circle method *)
Module CircleFacts.
Import Circle LoopFacts ListFacts SeatFacts.
Local Open Scope nat_scope.


Section Seats.
Variables (items : list Team.t) (m h : nat).
Hypothesis Hlen : length items = S m.
Hypothesis Hm : (m + 1 = 2 * h)%nat.

Lemma pairAt_rotation r i :
  (r < m)%nat -> (i < h)%nat ->
  pairAt (rotation_at items r) i
  = match items !! src m r i, items !! src m r (m - i) with
    | Some t1, Some t2 => if isBye t1 || isBye t2 then None else Some (t1, t2)
    | _, _ => None
    end.
Proof.
  intros Hr Hi. unfold pairAt. rewrite length_rotation_at, Hlen.
  replace (S m - 1 - i)%nat with (m - i)%nat by lia.
  by rewrite !(lookup_rotation_at _ m) by (done || lia).
Qed.

Lemma pairAt_Some r i t1 t2 :
  (r < m)%nat -> (i < h)%nat ->
  pairAt (rotation_at items r) i = Some (t1, t2) <->
  items !! src m r i = Some t1 /\ items !! src m r (m - i) = Some t2 /\
  isBye t1 = false /\ isBye t2 = false.
Proof.
  intros Hr Hi. rewrite pairAt_rotation by done.
  destruct (items !! src m r i) as [u1|], (items !! src m r (m - i)) as [u2|];
    [|split; [done|intros (?&?&?); done]..].
  destruct (isBye u1) eqn:E1, (isBye u2) eqn:E2; simpl; split;
    first [ done
          | intros (?&?&?&?); simplify_eq; congruence
          | intros ?; simplify_eq; done ].
Qed.

Lemma pairAt_None r i :
  (r < m)%nat -> (i < h)%nat ->
  pairAt (rotation_at items r) i = None <->
  exists t, isBye t = true /\
    (items !! src m r i = Some t \/ items !! src m r (m - i) = Some t).
Proof.
  intros Hr Hi. rewrite pairAt_rotation by done.
  destruct (lookup_lt_is_Some_2 items (src m r i)) as [u1 E1].
  { rewrite Hlen. pose proof (src_range m r i). lia. }
  destruct (lookup_lt_is_Some_2 items (src m r (m - i))) as [u2 E2].
  { rewrite Hlen. pose proof (src_range m r (m - i)). lia. }
  rewrite E1, E2.
  destruct (isBye u1) eqn:B1; simpl.
  { split; [|done]. intros _. exists u1. auto. }
  destruct (isBye u2) eqn:B2; simpl.
  { split; [|done]. intros _. exists u2. auto. }
  split; [done|]. intros (t & Ht & [?|?]); simplify_eq; congruence.
Qed.

Lemma matches_rotation r :
  matches (rotation_at items r) = omap (pairAt (rotation_at items r)) (seq 0 h).
Proof.
  unfold matches. rewrite length_rotation_at, Hlen.
  replace (S m) with (2 * h)%nat by lia. by rewrite half_even.
Qed.

Lemma allMatches_slots :
  allMatches items = omap (fun s => pairAt (rotation_at items s.1) s.2) (slots m h).
Proof.
  unfold allMatches, slots. rewrite Hlen. replace (S m - 1)%nat with m by lia.
  rewrite <- (bind_omap_pairs (fun r i => pairAt (rotation_at items r) i)).
  apply list_bind_ext; [|done]. intros r. apply matches_rotation.
Qed.

Lemma elem_of_slots r i : (r, i) ∈ slots m h <-> (r < m /\ i < h)%nat.
Proof. unfold slots. rewrite elem_of_pairs, !elem_of_seq. lia. Qed.

Lemma NoDup_slots : NoDup (slots m h).
Proof. apply NoDup_pairs; apply NoDup_seq. Qed.

Hypothesis Huniq : UniqueReal items.

(** Every two distinct real items meet in exactly one slot of the
    whole schedule. *)
Lemma circle_covers a b ta tb :
  items !! a = Some ta -> items !! b = Some tb -> a <> b ->
  isBye ta = false -> isBye tb = false ->
  length (filter (meets (Team.id ta) (Team.id tb)) (ids <$> allMatches items)) = 1%nat.
Proof.
  intros Ha Hb Hab Bta Btb.
  assert (a <= m /\ b <= m)%nat as [Hale Hble].
  { apply lookup_lt_Some in Ha, Hb. lia. }
  assert (exists r0 i0, (r0 < m /\ i0 < h)%nat /\
            ((src m r0 i0 = a /\ src m r0 (m - i0) = b) \/
             (src m r0 i0 = b /\ src m r0 (m - i0) = a))) as (r0 & i0 & Hri0 & Hseat0).
  { destruct (Nat.lt_total a b) as [Hlt|[?|Hlt]]; [|done|].
    - destruct (slot_exists m h a b) as (r & i & ? & ? & ?); [done..|]. eauto 10.
    - destruct (slot_exists m h b a) as (r & i & ? & ? & ?); [done..|].
      exists r, i. split; [done|]. tauto. }
  rewrite allMatches_slots, list_fmap_omap.
  assert (exists p0, pairAt (rotation_at items r0) i0 = Some p0 /\
                     meets (Team.id ta) (Team.id tb) (ids p0)) as (p0 & Hp0 & Hmeet0).
  { destruct Hri0 as [Hr0 Hi0].
    destruct Hseat0 as [[E1 E2]|[E1 E2]].
    - exists (ta, tb). split; [|by left].
      apply pairAt_Some; [done..|]. by rewrite E1, E2.
    - exists (tb, ta). split; [|by right].
      apply pairAt_Some; [done..|]. by rewrite E1, E2. }
  apply (length_filter_omap_unique _ _ _ (r0, i0) (ids p0)).
  - apply NoDup_slots.
  - by apply elem_of_slots.
  - simpl. by rewrite Hp0.
  - done.
  - intros [r i] q [Hr Hi]%elem_of_slots Hq Hmeet. simpl in Hq.
    destruct (pairAt (rotation_at items r) i) as [[t1 t2]|] eqn:Hp; [|done].
    simpl in Hq. injection Hq as <-.
    apply pairAt_Some in Hp as (E1 & E2 & B1 & B2); [|done..].
    assert ((src m r i = a /\ src m r (m - i) = b) \/
            (src m r i = b /\ src m r (m - i) = a)) as Hseat.
    { destruct Hmeet as [[I1 I2]|[I1 I2]]; simpl in I1, I2; [left|right]; split.
      - by apply (Huniq _ _ _ _ E1 Ha).
      - by apply (Huniq _ _ _ _ E2 Hb).
      - by apply (Huniq _ _ _ _ E1 Hb).
      - by apply (Huniq _ _ _ _ E2 Ha). }
    destruct (slot_unique m h r i r0 i0) as [-> ->]; [done|lia..| |done].
    destruct Hseat as [[-> ->]|[-> ->]], Hseat0 as [[-> ->]|[-> ->]]; auto.
Qed.
End Seats.

Lemma bind_omap {A B C} (f : A -> option B) (g : B -> list C) (l : list A) :
  omap f l ≫= g = l ≫= (fun a => from_option g [] (f a)).
Proof.
  induction l as [|a l IH]; csimpl; [done|].
  destruct (f a); csimpl; by rewrite IH.
Qed.


Section Rounds.
Variables (items : list Team.t) (m h : nat).
Hypothesis Hlen : length items = S m.
Hypothesis Hm : (m + 1 = 2 * h)%nat.

Lemma side_seat r i y :
  (r < m)%nat -> (i < h)%nat ->
  y ∈ from_option sides [] (pairAt (rotation_at items r) i) ->
  exists p t, (p = i \/ p = (m - i)%nat) /\ items !! src m r p = Some t /\
              Team.id t = y /\ isBye t = false.
Proof.
  intros Hr Hi Hy.
  destruct (pairAt (rotation_at items r) i) as [[t1 t2]|] eqn:Hp; simpl in Hy.
  - apply (pairAt_Some items m h) in Hp as (E1 & E2 & B1 & B2); [|done..].
    unfold sides in Hy. simpl in Hy.
    apply elem_of_cons in Hy as [->|Hy]; [by eauto 10|].
    apply list_elem_of_singleton in Hy as ->. eauto 10.
  - by apply elem_of_nil in Hy.
Qed.

Lemma round_sides_NoDup r :
  UniqueReal items -> (r < m)%nat ->
  NoDup (matches (rotation_at items r) ≫= sides).
Proof.
  intros Huniq Hr. rewrite (matches_rotation items m h) by done.
  rewrite bind_omap. apply NoDup_bind; [| |apply NoDup_seq].
  - intros i1 i2 y Hi1%elem_of_seq Hi2%elem_of_seq Hy1 Hy2.
    apply side_seat in Hy1 as (p1 & t1 & Hp1 & E1 & I1 & B1); [|lia..].
    apply side_seat in Hy2 as (p2 & t2 & Hp2 & E2 & I2 & B2); [|lia..].
    assert (src m r p1 = src m r p2) as Hs.
    { apply (Huniq _ _ _ _ E1 E2); congruence. }
    apply src_inj in Hs; lia.
  - intros i Hi%elem_of_seq.
    destruct (pairAt (rotation_at items r) i) as [[t1 t2]|] eqn:Hp; simpl;
      [|constructor].
    apply (pairAt_Some items m h) in Hp as (E1 & E2 & B1 & B2); [|(done || lia)..].
    unfold sides. simpl. apply NoDup_cons. split; [|apply NoDup_singleton].
    intros Hin%list_elem_of_singleton.
    assert (src m r i = src m r (m - i)) as Hs.
    { by apply (Huniq _ _ _ _ E1 E2). }
    apply src_inj in Hs; lia.
Qed.

Lemma matches_length_full r :
  (forall t, t ∈ items -> isBye t = false) -> (r < m)%nat ->
  length (matches (rotation_at items r)) = h.
Proof.
  intros Hreal Hr. rewrite (matches_rotation items m h) by done.
  rewrite length_omap_all; [apply length_seq|].
  intros i Hi%elem_of_seq.
  destruct (pairAt (rotation_at items r) i) eqn:Hp; [done|].
  apply (pairAt_None items m h) in Hp as (t & Bt & [E|E]); [| |(done || lia)..];
    apply list_elem_of_lookup_2 in E; apply Hreal in E; congruence.
Qed.

Lemma matches_length_bye r :
  (forall k t, items !! k = Some t -> isBye t = true <-> k = m) -> (r < m)%nat ->
  S (length (matches (rotation_at items r))) = h.
Proof.
  intros Hbye Hr. rewrite (matches_rotation items m h) by done.
  destruct (bye_slot m h r) as (i0 & Hi0 & Hslot); [done..|].
  rewrite (length_omap_but_one _ _ i0); [apply length_seq|apply NoDup_seq| |].
  - apply elem_of_seq. lia.
  - intros i Hi%elem_of_seq. rewrite <- Hslot by lia.
    rewrite (pairAt_None items m h) by (done || lia). split.
    + intros (t & Bt & [E|E]); [left|right]; by eapply Hbye.
    + destruct (lookup_lt_is_Some_2 items m) as [t Et]; [lia|].
      intros [E|E]; exists t; (split; [by eapply Hbye|]); rewrite E; auto.
Qed.

Lemma allMatches_length (c : nat) :
  (forall r, (r < m)%nat -> length (matches (rotation_at items r)) = c) ->
  length (allMatches items) = (m * c)%nat.
Proof.
  intros Hc. unfold allMatches. rewrite Hlen.
  replace (S m - 1)%nat with m by lia.
  rewrite (length_bind_const _ _ c), length_seq; [done|].
  intros r Hr%elem_of_seq. apply Hc. lia.
Qed.

Lemma allMatches_real t1 t2 :
  (t1, t2) ∈ allMatches items ->
  t1 ∈ items /\ t2 ∈ items /\ isBye t1 = false /\ isBye t2 = false.
Proof.
  rewrite (allMatches_slots items m h) by done.
  intros ([r i] & Hs & Hp)%list_elem_of_omap. simpl in Hp.
  apply (elem_of_slots items m h) in Hs as [Hr Hi]; [|done..].
  apply (pairAt_Some items m h) in Hp as (E1 & E2 & B1 & B2); [|done..].
  split_and!; [by eapply list_elem_of_lookup_2..|done|done].
Qed.
End Rounds.


(** The shape of the padded roster: [m + 1 = 2 * h] items. *)
Lemma padded_shape teams :
  (2 <= length teams)%nat ->
  exists m h : nat,
    length (padded teams) = S m /\ (m + 1 = 2 * h)%nat /\ (1 <= h)%nat /\
    (if Nat.odd (length teams) then m = length teams else S m = length teams).
Proof.
  intros Hn. destruct (length_padded teams) as (h & Hh & Hh').
  assert (1 <= h)%nat.
  { subst h. change 1%nat with (2 / 2)%nat. apply Nat.Div0.div_le_mono. lia. }
  exists (2 * h - 1)%nat, h. split_and!; [lia..|].
  unfold padded in Hh. destruct (Nat.odd (length teams)).
  - rewrite length_app in Hh. simpl in Hh. lia.
  - lia.
Qed.

Lemma isBye_id t : isBye t = true <-> Team.id t = "BYE".
Proof. unfold isBye. apply String.eqb_eq. Qed.

Lemma isBye_false t : isBye t = false <-> Team.id t <> "BYE".
Proof. unfold isBye. apply String.eqb_neq. Qed.

Lemma padded_lookup teams a t : teams !! a = Some t -> padded teams !! a = Some t.
Proof.
  intros H. unfold padded. destruct (Nat.odd _); [|done].
  by apply lookup_app_l_Some.
Qed.

Lemma padded_lookup_inv teams a t :
  padded teams !! a = Some t -> isBye t = false -> teams !! a = Some t.
Proof.
  unfold padded. destruct (Nat.odd _); [|done].
  intros [H|[_ H]]%lookup_app_Some Hb; [done|].
  apply list_lookup_singleton_Some in H as [_ <-]. done.
Qed.

Lemma padded_unique teams : NoDup (teamIds teams) -> UniqueReal (padded teams).
Proof.
  intros Hnd p q t t' Hp Hq Hid Hb.
  apply padded_lookup_inv in Hp; [|done].
  apply padded_lookup_inv in Hq; [|apply isBye_false; rewrite <- Hid; by apply isBye_false].
  apply (NoDup_lookup _ p q (Team.id t) Hnd); unfold teamIds;
    rewrite list_lookup_fmap; [by rewrite Hp|by rewrite Hq, Hid].
Qed.

Lemma padded_elem teams t : t ∈ padded teams -> t ∈ teams \/ t = BYE.
Proof.
  unfold padded. destruct (Nat.odd _); [|auto].
  intros [?|?%list_elem_of_singleton]%elem_of_app; auto.
Qed.

Lemma real_not_bye teams t : "BYE" ∉ teamIds teams -> t ∈ teams -> isBye t = false.
Proof.
  intros Hno Ht. apply isBye_false. intros E. apply Hno. rewrite <- E.
  unfold teamIds. by apply list_elem_of_fmap_2.
Qed.

(** Without a team called BYE, every round of an even roster has all
    its slots played and every round of an odd roster all but one. *)
Lemma matches_length teams m h r :
  "BYE" ∉ teamIds teams ->
  length (padded teams) = S m -> (m + 1 = 2 * h)%nat -> (r < m)%nat ->
  length (matches (rotation_at (padded teams) r))
  = if Nat.odd (length teams) then (h - 1)%nat else h.
Proof.
  intros Hno Hlen Hm Hr. destruct (Nat.odd (length teams)) eqn:Hodd.
  - enough (S (length (matches (rotation_at (padded teams) r))) = h) by lia.
    apply (matches_length_bye _ m); [done..| |done].
    intros k t Hk. unfold padded in *. rewrite Hodd in *.
    rewrite length_app in Hlen. simpl in Hlen.
    apply lookup_app_Some in Hk as [Hk|[Hge Hk]].
    + apply lookup_lt_Some in Hk as Hlt.
      apply list_elem_of_lookup_2 in Hk. apply (real_not_bye _ _ Hno) in Hk.
      rewrite Hk. split; [done|lia].
    + apply list_lookup_singleton_Some in Hk as [Hk <-]. split; [lia|done].
  - apply (matches_length_full _ m); [done..| |done].
    intros t Ht. unfold padded in Ht. rewrite Hodd in Ht. by eapply real_not_bye.
Qed.

Lemma pairs_count (n : nat) (m c : nat) :
  (2 * (m * c) = n * (n - 1))%nat -> (m * c = n * (n - 1) / 2)%nat.
Proof.
  intros H. rewrite <- H. symmetry. rewrite (Nat.mul_comm 2). apply Nat.div_mul. lia.
Qed.

Lemma allMatches_count teams :
  (2 <= length teams)%nat -> "BYE" ∉ teamIds teams ->
  length (allMatches (padded teams)) = (length teams * (length teams - 1) / 2)%nat.
Proof.
  intros Hn Hno. destruct (padded_shape teams Hn) as (m & h & Hlen & Hm & Hh & Hmn).
  rewrite allMatches_length
    with (m := m) (h := h) (c := if Nat.odd (length teams) then (h - 1)%nat else h).
  - apply pairs_count. destruct (Nat.odd (length teams)); nia.
  - done.
  - done.
  - intros r Hr. by apply (matches_length teams m h).
Qed.

End CircleFacts.

(** * The two generators, seen through the circle method *)
Module ScheduleFacts.
Import Circle LoopFacts ListFacts SeatFacts CircleFacts.

Lemma fmap_bind {A B C} (f : B -> C) (g : A -> list B) (l : list A) :
  f <$> (l ≫= g) = l ≫= (fun x => f <$> g x).
Proof. induction l as [|a l IH]; csimpl; [done|]. by rewrite fmap_app, IH. Qed.

Lemma bind_bind {A B C} (f : A -> list B) (g : B -> list C) (l : list A) :
  (l ≫= f) ≫= g = l ≫= (fun x => f x ≫= g).
Proof. induction l as [|a l IH]; csimpl; [done|]. by rewrite bind_app, IH. Qed.

Lemma filter_all {A} (P : A -> Prop) `{!forall a, Decision (P a)} (l : list A) :
  (forall a, a ∈ l -> P a) -> filter P l = l.
Proof.
  induction l as [|a l IH]; intros Hall; [done|].
  rewrite filter_cons_True by (apply Hall; left). f_equal.
  apply IH. intros a' Ha'. apply Hall. by right.
Qed.

Lemma filter_none {A} (P : A -> Prop) `{!forall a, Decision (P a)} (l : list A) :
  (forall a, a ∈ l -> ~ P a) -> filter P l = [].
Proof.
  induction l as [|a l IH]; intros Hall; [done|].
  rewrite filter_cons_False by (apply Hall; left).
  apply IH. intros a' Ha'. apply Hall. by right.
Qed.

Lemma previewRound_ids env start items r :
  previewIds <$> previewRound env start items r = ids <$> matches (rotation_at items r).
Proof. unfold previewRound. rewrite <- list_fmap_compose. by apply list_fmap_ext. Qed.

Lemma previewRound_sides env start items r :
  previewRound env start items r
    ≫= (fun f => [Team.id (FixturePreview.home f); Team.id (FixturePreview.away f)])
  = matches (rotation_at items r) ≫= sides.
Proof. unfold previewRound. rewrite list_fmap_bind. by apply list_bind_ext. Qed.

Lemma previewRound_round env start items r f :
  f ∈ previewRound env start items r ->
  FixturePreview.round f = Z.of_nat r + 1 /\
  FixturePreview.scheduledAt f
  = JSDate.toISOString (FixtureGenerator.roundDate env start (Z.of_nat r)).
Proof. unfold previewRound. intros (p & -> & _)%list_elem_of_fmap. done. Qed.

Lemma serverRound_ids env leagueId start items r :
  (fun d => (FixtureData.homeTeamId d, FixtureData.awayTeamId d))
    <$> serverRound env leagueId start items r
  = ids <$> matches (rotation_at items r).
Proof. unfold serverRound. rewrite <- list_fmap_compose. by apply list_fmap_ext. Qed.

Lemma serverRound_sides env leagueId start items r :
  serverRound env leagueId start items r
    ≫= (fun d => [FixtureData.homeTeamId d; FixtureData.awayTeamId d])
  = matches (rotation_at items r) ≫= sides.
Proof. unfold serverRound. rewrite list_fmap_bind. by apply list_bind_ext. Qed.

Lemma serverRound_date env leagueId start items r d :
  d ∈ serverRound env leagueId start items r ->
  FixtureData.scheduledAt d = GenerateRoute.roundDate env start (Z.of_nat r).
Proof. unfold serverRound. intros (p & -> & _)%list_elem_of_fmap. done. Qed.

(** A stored row is read through its data. *)
Lemma stored_fmap {C} (g : FixtureData.t -> C) uuid base ds :
  (fun f => g (Fixture.data f)) <$> stored uuid base ds = g <$> ds.
Proof.
  rewrite <- (stored_data uuid base ds) at 2. by rewrite <- list_fmap_compose.
Qed.

Lemma onDate_stored d uuid base ds :
  onDate d (stored uuid base ds) ≫= fixtureSides
  = filter (fun x => FixtureData.scheduledAt x = d) ds
      ≫= (fun x => [FixtureData.homeTeamId x; FixtureData.awayTeamId x]).
Proof.
  unfold onDate. revert base. induction ds as [|x ds IH]; intros base; [done|].
  simpl stored. rewrite !filter_cons. simpl Fixture.data.
  destruct (decide (FixtureData.scheduledAt x = d)); csimpl; by rewrite IH.
Qed.

Lemma elem_of_stored uuid base ds f :
  f ∈ stored uuid base ds -> Fixture.data f ∈ ds.
Proof. intros Hf. rewrite <- (stored_data uuid base ds). by apply list_elem_of_fmap_2. Qed.

Lemma stored_elem_of uuid base ds d :
  d ∈ ds -> exists f, f ∈ stored uuid base ds /\ Fixture.data f = d.
Proof.
  rewrite <- (stored_data uuid base ds) at 1.
  intros (f & -> & Hf)%list_elem_of_fmap. eauto.
Qed.

(** The preview and the handler both emit the matchups of the circle
    method over the padded roster. *)
Lemma preview_ids env teams :
  (2 <= length teams)%nat ->
  exists sched, FixtureGenerator.generateRoundRobinPreview env teams = Ok sched /\
    previewIds <$> sched = ids <$> allMatches (padded teams).
Proof.
  intros Hn. eexists. split; [by apply preview_schedule|].
  unfold allMatches. rewrite !fmap_bind. apply list_bind_ext; [|done].
  intros r. apply previewRound_ids.
Qed.

Lemma server_ids env (leagueId : string) db :
  leagueId <> EmptyString -> (2 <= length (Db.team_findMany db leagueId))%nat ->
  exists fs db',
    GenerateRoute.POST env (generateRequest leagueId) db = (Json fs, db') /\
    fixtureIds <$> fs = ids <$> allMatches (padded (Db.team_findMany db leagueId)).
Proof.
  intros Hid Hn. eexists _, _. split; [by apply server_generate|].
  unfold fixtureIds.
  rewrite (stored_fmap (fun d => (FixtureData.homeTeamId d, FixtureData.awayTeamId d))).
  unfold allMatches. rewrite !fmap_bind. apply list_bind_ext; [|done].
  intros r. apply serverRound_ids.
Qed.

Lemma coverage_allMatches teams :
  (2 <= length teams)%nat -> NoDup (teamIds teams) -> "BYE" ∉ teamIds teams ->
  Coverage teams (ids <$> allMatches (padded teams)).
Proof.
  intros Hn Hnd Hno. split.
  - rewrite length_fmap. by apply allMatches_count.
  - intros x y Hx Hy Hxy.
    apply list_elem_of_fmap in Hx as (tx & -> & Hx).
    apply list_elem_of_fmap in Hy as (ty & -> & Hy).
    apply list_elem_of_lookup in Hx as [a Ha], Hy as [b Hb].
    destruct (padded_shape teams Hn) as (m & h & Hlen & Hm & _ & _).
    apply (circle_covers (padded teams) m h Hlen Hm (padded_unique _ Hnd) a b).
    + by apply padded_lookup.
    + by apply padded_lookup.
    + intros ->. congruence.
    + eapply real_not_bye; [done|]. by eapply list_elem_of_lookup_2.
    + eapply real_not_bye; [done|]. by eapply list_elem_of_lookup_2.
Qed.
(** No matchup of the circle method has BYE on either side. *)
Lemma allMatches_no_bye teams p :
  (2 <= length teams)%nat ->
  p ∈ ids <$> allMatches (padded teams) ->
  p.1 <> "BYE"%string /\ p.2 <> "BYE"%string /\
  exists t1 t2, t1 ∈ teams /\ t2 ∈ teams /\ p = ids (t1, t2).
Proof.
  intros Hn ([t1 t2] & -> & Hp)%list_elem_of_fmap.
  destruct (padded_shape teams Hn) as (m & h & Hlen & Hm & _ & _).
  apply (allMatches_real _ m h Hlen Hm) in Hp as (H1 & H2 & B1 & B2).
  split; [by apply isBye_false|]. split; [by apply isBye_false|].
  exists t1, t2. split_and!; [| |done].
  - apply padded_elem in H1 as [? | ->]; done.
  - apply padded_elem in H2 as [? | ->]; done.
Qed.

Lemma no_coverage_with_bye teams :
  (2 <= length teams)%nat -> "BYE" ∈ teamIds teams ->
  ~ Coverage teams (ids <$> allMatches (padded teams)).
Proof.
  intros Hn Hbye [Hcount Hpairs].
  destruct (decide (Forall (fun y => y = "BYE"%string) (teamIds teams))) as [Hall|Hsome].
  - assert (allMatches (padded teams) = []) as E.
    { destruct (allMatches (padded teams)) as [|[t1 t2] l] eqn:El; [done|].
      destruct (allMatches_no_bye teams (ids (t1, t2)) Hn) as (N1 & _ & u1 & u2 & Hu1 & _ & Eu).
      { rewrite El. apply list_elem_of_fmap_2. left. }
      exfalso. apply N1. injection Eu as E1 _. simpl. rewrite E1.
      rewrite Forall_forall in Hall. apply Hall. unfold teamIds.
      by apply list_elem_of_fmap_2. }
    rewrite E in Hcount.
    assert (1 <= length teams * (length teams - 1) / 2)%nat as Hge.
    { change 1%nat with (2 / 2)%nat. apply Nat.Div0.div_le_mono.
      destruct (length teams) as [|[|k]]; [lia..|].
      replace (S (S k) - 1)%nat with (S k) by lia. simpl. lia. }
    rewrite <- Hcount, fmap_nil in Hge. simpl in Hge. lia.
  - apply not_Forall_Exists in Hsome; [|apply _].
    apply Exists_exists in Hsome as (y & Hy & Hne).
    specialize (Hpairs "BYE"%string y Hbye Hy ltac:(congruence)).
    destruct (filter (meets "BYE" y) (ids <$> allMatches (padded teams))) as [|p l] eqn:Ef;
      [done|].
    assert (p ∈ filter (meets "BYE" y) (ids <$> allMatches (padded teams))) as Hp
      by (rewrite Ef; left).
    apply list_elem_of_filter in Hp as [Hmeet Hp].
    apply allMatches_no_bye in Hp as (N1 & N2 & _); [|done].
    destruct Hmeet as [[? ?]|[? ?]]; congruence.
Qed.

End ScheduleFacts.

(** * Rounds: grouping the schedule by round *)
Module RoundFacts.
Import Circle LoopFacts ListFacts SeatFacts CircleFacts ScheduleFacts DateFacts.

Section Grouping.
Context {E K : Type} `{EqDecision K}.
Variables (key : E -> K) (rounds : nat -> list E) (keyOf : nat -> K) (m : nat).
Hypothesis Hkey : forall r e, e ∈ rounds r -> key e = keyOf r.
Hypothesis Hinj : forall r r', (r < m)%nat -> (r' < m)%nat -> keyOf r = keyOf r' -> r = r'.

Lemma filter_round k r :
  filter (fun e => key e = k) (rounds r)
  = if decide (keyOf r = k) then rounds r else [].
Proof.
  destruct (decide (keyOf r = k)) as [<-|Hne].
  - apply filter_all. intros e He. by apply Hkey.
  - apply filter_none. intros e He Hk. apply Hne. rewrite <- Hk. symmetry. by apply Hkey.
Qed.

Lemma group_NoDup {C} (g : E -> list C) k :
  (forall r, (r < m)%nat -> NoDup (rounds r ≫= g)) ->
  NoDup (filter (fun e => key e = k) (seq 0 m ≫= rounds) ≫= g).
Proof.
  intros Hnd. rewrite filter_bind, bind_bind.
  apply NoDup_bind; [| |apply NoDup_seq].
  - intros r1 r2 y Hr1%elem_of_seq Hr2%elem_of_seq Hy1 Hy2.
    rewrite filter_round in Hy1, Hy2.
    destruct (decide (keyOf r1 = k)) as [E1|?]; [|by apply elem_of_nil in Hy1].
    destruct (decide (keyOf r2 = k)) as [E2|?]; [|by apply elem_of_nil in Hy2].
    apply Hinj; [lia..|congruence].
  - intros r Hr%elem_of_seq. rewrite filter_round.
    destruct (decide (keyOf r = k)); [apply Hnd; lia|constructor].
Qed.

Lemma group_played k :
  (forall r, (r < m)%nat -> rounds r <> []) ->
  (exists e, e ∈ seq 0 m ≫= rounds /\ key e = k) <-> exists r, (r < m)%nat /\ keyOf r = k.
Proof.
  intros Hne. split.
  - intros (e & (r & He & Hr%elem_of_seq)%list_elem_of_bind & <-).
    exists r. split; [lia|]. symmetry. by apply Hkey.
  - intros (r & Hr & <-). specialize (Hne r Hr).
    destruct (rounds r) as [|e l] eqn:Er; [done|].
    exists e. split.
    + apply list_elem_of_bind. exists r. rewrite Er. split; [left|].
      apply elem_of_seq. lia.
    + apply Hkey. rewrite Er. left.
Qed.
End Grouping.

(** The date of round [k]: the instant at which the local clock shows
    the local time of the first round, [k] weeks on. *)
Lemma preview_roundDate env start k :
  FixtureGenerator.roundDate env start k
  = JSDate.UTC (zone env) (JSDate.LocalTime (zone env) start + k * 7 * JSDate.msPerDay).
Proof. unfold FixtureGenerator.roundDate. by rewrite setDate_getDate. Qed.

Lemma server_roundDate env start k :
  GenerateRoute.roundDate env start k
  = JSDate.UTC (zone env) (JSDate.LocalTime (zone env) start + k * 7 * JSDate.msPerDay).
Proof. unfold GenerateRoute.roundDate. by rewrite setDate_getDate. Qed.

(** A later round has a later date, whatever the clock changes between
    the two: an offset is less than a day. *)
Lemma server_roundDate_lt env start (k k' : Z) :
  k < k' -> GenerateRoute.roundDate env start k < GenerateRoute.roundDate env start k'.
Proof.
  intros Hk. rewrite !server_roundDate.
  pose proof (UTC_bounds (zone env)
                (JSDate.LocalTime (zone env) start + k * 7 * JSDate.msPerDay)).
  pose proof (UTC_bounds (zone env)
                (JSDate.LocalTime (zone env) start + k' * 7 * JSDate.msPerDay)).
  generalize dependent (JSDate.LocalTime (zone env) start). intros l.
  generalize (JSDate.UTC (zone env) (l + k * 7 * JSDate.msPerDay)).
  generalize (JSDate.UTC (zone env) (l + k' * 7 * JSDate.msPerDay)).
  unfold JSDate.msPerDay. lia.
Qed.

Lemma server_roundDate_inj env start (r r' : nat) :
  GenerateRoute.roundDate env start (Z.of_nat r)
  = GenerateRoute.roundDate env start (Z.of_nat r') -> r = r'.
Proof.
  intros E. destruct (Nat.lt_trichotomy r r') as [H|[H|H]]; [|done|].
  - pose proof (server_roundDate_lt env start (Z.of_nat r) (Z.of_nat r') ltac:(lia)). lia.
  - pose proof (server_roundDate_lt env start (Z.of_nat r') (Z.of_nat r) ltac:(lia)). lia.
Qed.

Lemma previewRound_nonempty env start items r :
  matches (rotation_at items r) <> [] -> previewRound env start items r <> [].
Proof. unfold previewRound. by destruct (matches _). Qed.

Lemma serverRound_nonempty env leagueId start items r :
  matches (rotation_at items r) <> [] -> serverRound env leagueId start items r <> [].
Proof. unfold serverRound. by destruct (matches _). Qed.

Lemma matches_nonempty teams m h r :
  (2 <= length teams)%nat -> "BYE" ∉ teamIds teams ->
  length (padded teams) = S m -> (m + 1 = 2 * h)%nat -> (r < m)%nat ->
  matches (rotation_at (padded teams) r) <> [].
Proof.
  intros Hn Hno Hlen Hm Hr E. apply (f_equal length) in E.
  rewrite (matches_length teams m h) in E by done.
  unfold padded in Hlen. simpl in E.
  destruct (Nat.odd (length teams)) eqn:Hodd.
  - rewrite length_app in Hlen. simpl in Hlen.
    apply Nat.odd_spec in Hodd as [j Hj]. lia.
  - lia.
Qed.

Lemma omap_nil_inv {A B} (f : A -> option B) (l : list A) x :
  omap f l = [] -> x ∈ l -> f x = None.
Proof.
  induction l as [|a l IH]; intros E Hx; [by apply elem_of_nil in Hx|].
  simpl in E. destruct (f a) eqn:Ea; [done|].
  apply elem_of_cons in Hx as [->|Hx]; auto.
Qed.

(** Two seats of a round that hold the same item are the same seat. *)
Ltac seat_clash Hinj :=
  match goal with
  | H1 : src ?m ?r ?p = ?b, H2 : src ?m ?r ?q = ?b |- _ =>
      assert (p = q) by (apply Hinj; [lia|lia|congruence]); lia
  end.

(** Byes at no more than two places leave one of three slots of a round
    free, a bye at one place leaves one of two. *)
Lemma free_slot items m h r (b1 b2 : nat) :
  length items = S m -> (m + 1 = 2 * h)%nat -> (r < m)%nat ->
  (3 <= h)%nat \/ ((2 <= h)%nat /\ b1 = b2) ->
  (forall p t, items !! p = Some t -> isBye t = true -> p = b1 \/ p = b2) ->
  matches (rotation_at items r) <> [].
Proof.
  intros Hlen Hm Hr Hh Hbye E.
  rewrite (matches_rotation items m h) in E by done.
  assert (Hslot : forall i, (i < h)%nat ->
            exists p, (p = i \/ p = (m - i)%nat) /\ (src m r p = b1 \/ src m r p = b2)).
  { intros i Hi.
    assert (pairAt (rotation_at items r) i = None) as Hp.
    { apply (omap_nil_inv _ _ _ E), elem_of_seq. lia. }
    apply (pairAt_None items m h) in Hp as (t & Bt & [Et|Et]); [| |done..].
    - exists i. split; [by left|]. by eapply Hbye.
    - exists (m - i)%nat. split; [by right|]. by eapply Hbye. }
  assert (Hinj : forall p q, (p <= m)%nat -> (q <= m)%nat ->
            src m r p = src m r q -> p = q).
  { intros p q Hp Hq. by apply src_inj. }
  destruct Hh as [Hh|[Hh ->]].
  - destruct (Hslot 0%nat) as (p0 & Hp0 & Hs0); [lia|].
    destruct (Hslot 1%nat) as (p1 & Hp1 & Hs1); [lia|].
    destruct (Hslot 2%nat) as (p2 & Hp2 & Hs2); [lia|].
    destruct Hs0, Hs1, Hs2; seat_clash Hinj.
  - destruct (Hslot 0%nat) as (p0 & Hp0 & Hs0); [lia|].
    destruct (Hslot 1%nat) as (p1 & Hp1 & Hs1); [lia|].
    destruct Hs0, Hs1; seat_clash Hinj.
Qed.

(** In a roster of four or more teams with distinct identifiers every
    round has a matchup, a team called BYE or not. *)
Lemma matches_nonempty_four teams m h r :
  (4 <= length teams)%nat -> NoDup (teamIds teams) ->
  length (padded teams) = S m -> (m + 1 = 2 * h)%nat -> (r < m)%nat ->
  matches (rotation_at (padded teams) r) <> [].
Proof.
  intros Hn Hnd Hlen Hm Hr.
  destruct (decide ("BYE" ∈ teamIds teams)) as [Hin|Hno];
    [|apply (matches_nonempty teams m h); (done || lia)].
  apply list_elem_of_lookup_1 in Hin as [k0 Hk0].
  assert (Hreal : forall p t, teams !! p = Some t -> isBye t = true -> p = k0).
  { intros p t Hp Bt. apply (NoDup_lookup _ p k0 "BYE" Hnd); [|done].
    unfold teamIds. rewrite list_lookup_fmap, Hp. simpl. f_equal. by apply isBye_id. }
  unfold padded in *. destruct (Nat.odd (length teams)) eqn:Hodd.
  - rewrite length_app in Hlen. simpl in Hlen.
    apply Nat.odd_spec in Hodd as [j Hj].
    apply (free_slot _ m h r k0 (length teams)); [by rewrite length_app|done|done|left; lia|].
    intros p t Hp Bt. apply lookup_app_Some in Hp as [Hp|[Hge Hp]]; [left; by eapply Hreal|].
    right. apply list_lookup_singleton_Some in Hp as [Hp _]. lia.
  - apply (free_slot _ m h r k0 k0); [done..|right; split; [lia|done]|].
    intros p t Hp Bt. left. by eapply Hreal.
Qed.

(** Every round has a matchup unless the roster has a team called BYE
    and fewer than four teams. *)
Lemma round_played teams m h r :
  (2 <= length teams)%nat -> NoDup (teamIds teams) ->
  "BYE" ∉ teamIds teams \/ (4 <= length teams)%nat ->
  length (padded teams) = S m -> (m + 1 = 2 * h)%nat -> (r < m)%nat ->
  matches (rotation_at (padded teams) r) <> [].
Proof.
  intros Hn Hnd [Hno|Hfour] Hlen Hm Hr.
  - by apply (matches_nonempty teams m h).
  - by apply (matches_nonempty_four teams m h).
Qed.

Lemma roundCount_padded teams m :
  (2 <= length teams)%nat -> length (padded teams) = S m ->
  roundCount (length teams) = Z.of_nat m.
Proof.
  intros Hn Hlen. unfold roundCount, padded in *.
  rewrite <- Nat.negb_odd. destruct (Nat.odd (length teams)); simpl.
  - rewrite length_app in Hlen. simpl in Hlen. lia.
  - lia.
Qed.
End RoundFacts.

(** * Both generators run side by side *)
Module RunFacts.
Import Circle LoopFacts ListFacts SeatFacts CircleFacts ScheduleFacts DateFacts RoundFacts.
Import FixtureGenerator GenerateRoute JSDate.

Lemma preview_small env teams :
  (length teams < 2)%nat -> generateRoundRobinPreview env teams = Ok [].
Proof.
  intros Hn. unfold generateRoundRobinPreview.
  destruct (Z.ltb_spec (len teams) 2) as [_|H]; [done|]. unfold len in H. lia.
Qed.

(** The preview returns, on every roster. *)
Lemma preview_run env teams :
  generateRoundRobinPreview env teams
  = Ok (if decide (2 <= length teams)%nat
        then seq 0 (length (padded teams) - 1)
               ≫= previewRound env (FixtureGenerator.startDate env) (padded teams)
        else []).
Proof.
  case_decide; [by apply preview_schedule|apply preview_small; lia].
Qed.

(** The handler refuses a league of fewer than two teams. *)
Lemma server_small env req (leagueId : JsonValue) db :
  body_leagueId req = Some leagueId -> truthy (Some leagueId) = true ->
  (length (Db.team_findMany db leagueId) < 2)%nat ->
  POST env req db = (Text 400 "At least two teams are required", db).
Proof.
  intros Hreq Hid Hn. unfold POST.
  destruct req as [msg|[]]; try discriminate Hreq.
  cbn [req_json get_leagueId]. simpl in Hreq. rewrite Hreq, Hid. cbn [negb].
  destruct (Z.ltb_spec (len (Db.team_findMany db leagueId)) 2) as [_|H]; [done|].
  unfold len in H. lia.
Qed.

Lemma server_generate_small env (leagueId : string) db :
  leagueId <> EmptyString -> (length (Db.team_findMany db leagueId) < 2)%nat ->
  POST env (generateRequest leagueId) db
  = (Text 400 "At least two teams are required", db).
Proof. intros Hid Hn. apply (server_small _ _ leagueId); [done|by apply truthy_string|done]. Qed.

(** The handler on a body that cannot be read, and on one without a
    truthy [leagueId]. *)
Lemma server_unparsable env msg db : POST env (Unparsable msg) db = (Text 500 msg, db).
Proof. reflexivity. Qed.

Lemma server_null env db :
  POST env (Parsed JNull) db
  = (Text 500 "Cannot read properties of null (reading 'leagueId')", db).
Proof. reflexivity. Qed.

Lemma server_missing env body db :
  body <> JNull -> truthy (body_leagueId (Parsed body)) = false ->
  POST env (Parsed body) db = (Text 400 "Missing leagueId", db).
Proof.
  intros Hnull Hid. unfold POST. cbn [req_json].
  destruct body as [|b|n|s|items|members]; try done.
  cbn [get_leagueId]. simpl in Hid.
  destruct (lookupLast "leagueId" members) as [v|]; [|done]. by rewrite Hid.
Qed.

Lemma null_or_not (body : JsonValue) : body = JNull \/ body <> JNull.
Proof. destruct body; (by left) || (by right). Qed.

(** The ways a request ends: answered 500 or 400 with the store
    untouched, or answered with the rows of the schedule, appended to the
    table of fixtures. *)
Lemma server_run env req db :
  (exists status body, POST env req db = (Text status body, db) /\
     (status = 500 <-> (exists msg, req = Unparsable msg) \/ req = Parsed JNull) /\
     (status = 400 \/ status = 500)) \/
  (exists leagueId,
     body_leagueId req = Some leagueId /\ truthy (Some leagueId) = true /\
     (2 <= length (roster db leagueId))%nat /\
     POST env req db
     = (Json (serverRows env leagueId db), grown db (serverRows env leagueId db))).
Proof.
  destruct req as [msg|body].
  { left. exists 500, msg. split; [apply server_unparsable|]. split; [|by right].
    split; [intros _; left; by eexists|done]. }
  destruct (truthy (body_leagueId (Parsed body))) eqn:Hid.
  - destruct (body_leagueId (Parsed body)) as [v|] eqn:Hreq; [|done].
    destruct (le_lt_dec 2 (length (Db.team_findMany db v))) as [Hn|Hn].
    + right. exists v. split_and!; [done..|]. by apply server_schedule.
    + left. eexists 400, _. split; [by apply (server_small _ _ v)|]. split; [|by left].
      split; [done|]. intros [[msg E]|E]; [done|]. by rewrite E in Hreq.
  - destruct (null_or_not body) as [->|Hnull].
    + left. eexists 500, _. split; [apply server_null|]. split; [|by right].
      split; [intros _; by right|done].
    + left. eexists 400, _. split; [by apply server_missing|]. split; [|by left].
      split; [done|]. intros [[msg E]|E]; [done|]. by injection E.
Qed.

Lemma startDate_same env : GenerateRoute.startDate env = FixtureGenerator.startDate env.
Proof. unfold GenerateRoute.startDate, FixtureGenerator.startDate. reflexivity. Qed.

Lemma roundDate_same env k :
  FixtureGenerator.roundDate env (FixtureGenerator.startDate env) k
  = GenerateRoute.roundDate env (GenerateRoute.startDate env) k.
Proof.
  unfold FixtureGenerator.roundDate, GenerateRoute.roundDate,
    GenerateRoute.startDate, FixtureGenerator.startDate. reflexivity.
Qed.

Lemma round_Agree env leagueId items base (r : nat) :
  Forall2 (fun p d =>
             Agree env p (Fixture.mk base d))
    (previewRound env (FixtureGenerator.startDate env) items r)
    (serverRound env leagueId (GenerateRoute.startDate env) items r).
Proof.
  unfold previewRound, serverRound.
  induction (matches (rotation_at items r)) as [|p l IH]; csimpl; constructor;
    [|exact IH].
  unfold Agree, previewEntry, pairData, serverPair.
  cbn [FixturePreview.home FixturePreview.away FixturePreview.round
       FixturePreview.scheduledAt Fixture.data FixtureData.homeTeamId
       FixtureData.awayTeamId FixtureData.scheduledAt homeId awayId].
  replace (Z.of_nat r + 1 - 1) with (Z.of_nat r) by lia.
  split_and!; [reflexivity|reflexivity| |reflexivity].
  exact (f_equal JSDate.toISOString (roundDate_same env (Z.of_nat r))).
Qed.

Lemma stored_Forall2 {A} (R : A -> FixtureData.t -> Prop) l uuid base ds :
  Forall2 R l ds -> Forall2 (fun a f => R a (Fixture.data f)) l (stored uuid base ds).
Proof.
  intros H. revert base. induction H; intros base; simpl; constructor; auto.
Qed.

(** Run on the same roster with the same clock in the same zone, the
    preview and the handler emit the same matchups in the same order. *)
Lemma runs_agree env (leagueId : string) db :
  leagueId <> EmptyString ->
  exists sched,
    generateRoundRobinPreview env (Db.team_findMany db leagueId) = Ok sched /\
    Forall2 (Agree env) sched (createdIn (POST env (generateRequest leagueId) db).1).
Proof.
  intros Hid. destruct (le_lt_dec 2 (length (Db.team_findMany db leagueId))) as [Hn|Hn].
  - eexists. split; [by apply preview_schedule|].
    rewrite server_generate by done. cbn [fst createdIn].
    apply (stored_Forall2 (fun p d => Agree env p (Fixture.mk "" d))).
    apply Forall2_bind, Forall_Forall2_diag, Forall_forall. intros r _.
    apply round_Agree.
  - exists []. split; [by apply preview_small|].
    rewrite server_generate_small by done. constructor.
Qed.

Lemma localDay_eq env t :
  localDay env t = Day (LocalTime (zone env) t).
Proof. unfold localDay. reflexivity. Qed.

Lemma getDay_localDay env t : getDay (zone env) t = (localDay env t + 4) mod 7.
Proof. reflexivity. Qed.

(** The days from the day [today] to the next Saturday after it. *)
Lemma daysUntilSat_spec today :
  1 <= daysUntilSat today <= 7 /\
  (today + daysUntilSat today + 4) mod 7 = 6 /\
  ((today + 4) mod 7 = 3 -> daysUntilSat today = 3) /\
  ((today + 4) mod 7 = 6 -> daysUntilSat today = 7).
Proof.
  unfold daysUntilSat. cbv zeta.
  remember ((today + 4) mod 7) as wd eqn:Hwd.
  assert (Hwd' : 0 <= wd < 7) by (rewrite Hwd; apply Z.mod_pos_bound; lia).
  rewrite (Z.rem_mod_nonneg (6 - wd + 7) 7) by lia.
  euclid (today + 4) 7. euclid (6 - wd + 7) 7.
  destruct (Z.eqb_spec ((6 - wd + 7) mod 7) 0) as [E|E].
  - assert (wd = 6) as Ewd by lia. euclid (today + 7 + 4) 7. split_and!; lia.
  - euclid (today + (6 - wd + 7) mod 7 + 4) 7. split_and!; lia.
Qed.

Lemma startDate_unfold env :
  FixtureGenerator.startDate env
  = setHours (zone env)
      (setDate (zone env) (now env)
         (getDate (zone env) (now env) + daysUntilSat (localDay env (now env))))
      10 0 0 0.
Proof.
  unfold FixtureGenerator.startDate, daysUntilSat, localDay, getDay, WeekDay.
  reflexivity.
Qed.

Lemma ten_oclock : 0 <= MakeTime 10 0 0 0 < msPerDay.
Proof. unfold MakeTime, msPerDay, msPerHour, msPerMinute, msPerSecond. lia. Qed.

(** When the Saturday aimed at keeps its day, the first round is at
    the instant at which the local clock is to show its 10:00. *)
Lemma startDate_eq env :
  keepsDay (zone env)
    (LocalTime (zone env) (now env) + daysUntilSat (localDay env (now env)) * msPerDay) ->
  FixtureGenerator.startDate env
  = UTC (zone env) (MakeDate (anchorDay env) (MakeTime 10 0 0 0)).
Proof.
  unfold keepsDay, anchorDay. intros Hday.
  rewrite startDate_unfold, setHours_eq, setDate_getDate.
  rewrite Hday, Day_add_days, <- localDay_eq. reflexivity.
Qed.

Lemma startDate_local env :
  AnchorKept env ->
  LocalTime (zone env) (FixtureGenerator.startDate env)
  = MakeDate (anchorDay env) (MakeTime 10 0 0 0).
Proof. intros [Hday Hten]. rewrite startDate_eq by done. exact Hten. Qed.

(** A zone that keeps its Saturdays has the Saturday of every run. *)
Lemma SaturdayKept_anchor env : SaturdayKept (zone env) -> AnchorKept env.
Proof.
  intros Hkept. unfold AnchorKept, anchorDay.
  destruct (daysUntilSat_spec (localDay env (now env))) as (_ & Hsat & _).
  remember (daysUntilSat (localDay env (now env))) as d eqn:Ed. clear Ed. split.
  - apply Hkept. unfold WeekDay. rewrite Day_add_days, <- localDay_eq. exact Hsat.
  - apply Hkept.
    + unfold WeekDay. rewrite Day_MakeDate by apply ten_oclock. exact Hsat.
    + apply TimeWithinDay_MakeDate, ten_oclock.
Qed.

(** What the anchor rule computes. *)
Lemma anchor_facts env :
  AnchorKept env ->
  JSDate.getDay (zone env) (FixtureGenerator.startDate env) = 6 /\
  JSDate.TimeWithinDay (JSDate.LocalTime (zone env) (FixtureGenerator.startDate env))
  = JSDate.MakeTime 10 0 0 0 /\
  (JSDate.HourFromTime (JSDate.LocalTime (zone env) (FixtureGenerator.startDate env)) = 10 /\
   JSDate.MinFromTime (JSDate.LocalTime (zone env) (FixtureGenerator.startDate env)) = 0 /\
   JSDate.SecFromTime (JSDate.LocalTime (zone env) (FixtureGenerator.startDate env)) = 0 /\
   JSDate.msFromTime (JSDate.LocalTime (zone env) (FixtureGenerator.startDate env)) = 0) /\
  localDay env (now env) < localDay env (FixtureGenerator.startDate env)
    <= localDay env (now env) + 7 /\
  (forall t, localDay env (now env) < localDay env t
               < localDay env (FixtureGenerator.startDate env) ->
             JSDate.getDay (zone env) t <> 6) /\
  (JSDate.getDay (zone env) (now env) = 3 ->
   localDay env (FixtureGenerator.startDate env) = localDay env (now env) + 3) /\
  (JSDate.getDay (zone env) (now env) = 6 ->
   localDay env (FixtureGenerator.startDate env) = localDay env (now env) + 7).
Proof.
  intros Hkept. pose proof (startDate_local env Hkept) as Hloc.
  remember (FixtureGenerator.startDate env) as start eqn:Estart. clear Estart.
  rewrite !getDay_localDay.
  destruct (daysUntilSat_spec (localDay env (now env))) as (Hd1 & Hd6 & Hd3 & Hd7).
  unfold anchorDay in Hloc.
  remember (daysUntilSat (localDay env (now env))) as d eqn:Ed. clear Ed.
  remember (localDay env (now env)) as today eqn:Etoday. clear Etoday.
  assert (Hday : localDay env start = today + d).
  { rewrite localDay_eq, Hloc. apply Day_MakeDate, ten_oclock. }
  rewrite Hday, Hloc. clear Hday Hloc.
  unfold JSDate.MakeDate, JSDate.TimeWithinDay, JSDate.HourFromTime, JSDate.MinFromTime,
    JSDate.SecFromTime, JSDate.msFromTime, JSDate.MakeTime, JSDate.msPerDay,
    JSDate.msPerHour, JSDate.msPerMinute, JSDate.msPerSecond.
  remember (today + d) as D eqn:ED.
  replace (D * 86400000 + (10 * 3600000 + 0 * 60000 + 0 * 1000 + 0))
    with (D * 86400000 + 36000000) by lia.
  euclid (today + 4) 7. euclid (D + 4) 7.
  split_and!.
  - lia.
  - symmetry. apply (Z.mod_unique _ _ D); lia.
  - symmetry. apply (Z.mod_unique _ _ D).
    + lia.
    + rewrite <- (Z.div_unique (D * 86400000 + 36000000) 3600000 (D * 24 + 10) 0); lia.
  - symmetry. apply (Z.mod_unique _ _ (D * 24 + 10)).
    + lia.
    + rewrite <- (Z.div_unique (D * 86400000 + 36000000) 60000 ((D * 24 + 10) * 60) 0); lia.
  - symmetry. apply (Z.mod_unique _ _ (D * 1440 + 600)).
    + lia.
    + rewrite <- (Z.div_unique (D * 86400000 + 36000000) 1000 ((D * 1440 + 600) * 60) 0); lia.
  - symmetry. apply (Z.mod_unique _ _ (D * 86400 + 36000)); lia.
  - lia.
  - lia.
  - intros t Ht. rewrite getDay_localDay. euclid (localDay env t + 4) 7. lia.
  - lia.
  - lia.
Qed.

(** Round [k], read on the local clock, is the local time of the first
    round [k] weeks on, when that time is on the clock. *)
Lemma roundDate_local env start k :
  onClock (zone env) (LocalTime (zone env) start + k * 7 * msPerDay) ->
  LocalTime (zone env) (FixtureGenerator.roundDate env start k)
  = LocalTime (zone env) start + k * 7 * msPerDay.
Proof. intros Hclock. rewrite preview_roundDate. exact Hclock. Qed.

(** In a zone that keeps its Saturdays the local time of every round
    is on the clock. *)
Lemma SaturdayKept_round env k :
  SaturdayKept (zone env) ->
  onClock (zone env)
    (LocalTime (zone env) (FixtureGenerator.startDate env) + k * 7 * msPerDay).
Proof.
  intros Hkept. rewrite startDate_local by (by apply SaturdayKept_anchor).
  unfold anchorDay.
  destruct (daysUntilSat_spec (localDay env (now env))) as (_ & Hsat & _).
  remember (localDay env (now env) + daysUntilSat (localDay env (now env))) as D eqn:ED.
  clear ED. apply Hkept.
  - unfold WeekDay. replace (k * 7 * msPerDay) with ((k * 7) * msPerDay) by lia.
    rewrite Day_add_days, Day_MakeDate by apply ten_oclock.
    replace (D + k * 7 + 4) with (D + 4 + k * 7) by lia.
    rewrite Z_mod_plus_full. exact Hsat.
  - replace (k * 7 * msPerDay) with ((k * 7) * msPerDay) by lia.
    rewrite TimeWithinDay_add_days. apply TimeWithinDay_MakeDate, ten_oclock.
Qed.


(** The rounds are dated through the zone alone. *)
Lemma previewRound_env env1 env2 start items r :
  zone env1 = zone env2 ->
  previewRound env1 start items r = previewRound env2 start items r.
Proof. intros Hz. unfold previewRound. by rewrite !preview_roundDate, Hz. Qed.

Lemma serverRound_env env1 env2 leagueId start items r :
  zone env1 = zone env2 ->
  serverRound env1 leagueId start items r = serverRound env2 leagueId start items r.
Proof. intros Hz. unfold serverRound. by rewrite !server_roundDate, Hz. Qed.

(** The anchor is a function of the zone and the local day. *)
Lemma startDate_day env1 env2 :
  zone env1 = zone env2 ->
  localDay env1 (now env1) = localDay env2 (now env2) ->
  AnchorKept env1 -> AnchorKept env2 ->
  FixtureGenerator.startDate env1 = FixtureGenerator.startDate env2.
Proof.
  intros Hz Hday [H1 _] [H2 _].
  rewrite (startDate_eq env1), (startDate_eq env2) by done.
  unfold anchorDay. by rewrite Hz, Hday.
Qed.

Lemma server_startDate_day env1 env2 :
  zone env1 = zone env2 ->
  localDay env1 (now env1) = localDay env2 (now env2) ->
  AnchorKept env1 -> AnchorKept env2 ->
  GenerateRoute.startDate env1 = GenerateRoute.startDate env2.
Proof.
  intros Hz Hday H1 H2.
  exact (eq_trans (startDate_same env1)
           (eq_trans (startDate_day env1 env2 Hz Hday H1 H2) (eq_sym (startDate_same env2)))).
Qed.

(** So is it of the zone and the instant. *)
Lemma startDate_now env1 env2 :
  zone env1 = zone env2 -> now env1 = now env2 ->
  FixtureGenerator.startDate env1 = FixtureGenerator.startDate env2.
Proof.
  intros Hz Hnow. rewrite (startDate_unfold env1), (startDate_unfold env2).
  rewrite !localDay_eq. by rewrite Hz, Hnow.
Qed.

Lemma preview_same env1 env2 teams :
  zone env1 = zone env2 ->
  FixtureGenerator.startDate env1 = FixtureGenerator.startDate env2 ->
  generateRoundRobinPreview env1 teams = generateRoundRobinPreview env2 teams.
Proof.
  intros Hz Hs. rewrite (preview_run env1), (preview_run env2).
  case_decide; [|done]. rewrite Hs.
  apply (f_equal Ok). apply list_bind_ext; [|done]. intros r. by apply previewRound_env.
Qed.

(** The handler reads the body through its [leagueId] alone. *)
Lemma server_body env body1 body2 db :
  get_leagueId body1 = get_leagueId body2 ->
  POST env (Parsed body1) db = POST env (Parsed body2) db.
Proof. intros E. unfold POST. cbn [req_json]. by rewrite E. Qed.

(** Two runs that read the same first date in the same zone, on stores
    that answer the team query alike, create fixtures with the same
    data, whatever fixtures and keys the stores hold. *)
Lemma server_same env1 env2 req db1 db2 :
  zone env1 = zone env2 ->
  GenerateRoute.startDate env1 = GenerateRoute.startDate env2 ->
  (forall leagueId : JsonValue, roster db1 leagueId = roster db2 leagueId) ->
  statusOf (GenerateRoute.POST env1 req db1).1 = statusOf (GenerateRoute.POST env2 req db2).1 /\
  Fixture.data <$> createdIn (GenerateRoute.POST env1 req db1).1
  = Fixture.data <$> createdIn (GenerateRoute.POST env2 req db2).1.
Proof.
  unfold roster. intros Hz Hstart Hteams.
  destruct req as [msg|body].
  { by rewrite (server_unparsable env1), (server_unparsable env2). }
  destruct (truthy (body_leagueId (Parsed body))) eqn:Hid.
  - destruct (body_leagueId (Parsed body)) as [v|] eqn:Hreq; [|done].
    destruct (le_lt_dec 2 (length (Db.team_findMany db1 v))) as [Hn|Hn].
    + rewrite (server_schedule env1 _ v), (server_schedule env2 _ v)
        by (done || by rewrite <- Hteams).
      cbn [fst createdIn statusOf]. split; [done|].
      rewrite !stored_data, Hteams, Hstart.
      apply list_bind_ext; [|done]. intros r. by apply serverRound_env.
    + rewrite (server_small env1 _ v), (server_small env2 _ v)
        by (done || by rewrite <- Hteams). done.
  - destruct (null_or_not body) as [->|Hnull].
    + by rewrite (server_null env1), (server_null env2).
    + by rewrite (server_missing env1), (server_missing env2).
Qed.

End RunFacts.

(** * The claims

    Each claim is stated for an arbitrary clock and zone [env], league
    and store [db]; the roster is the answer of the store to the team
    query, which is what the preview (through /api/teams) and the
    handler both work on. *)

Import Circle LoopFacts ListFacts SeatFacts CircleFacts.
Import ScheduleFacts DateFacts RoundFacts RunFacts.
Import FixtureGenerator GenerateRoute.

(** Decides a closed decidable proposition by evaluation. *)
Ltac by_decide := apply (bool_decide_unpack _); vm_compute; exact I.

(** C1, as amended: for every roster of n >= 2 teams with pairwise
    distinct identifiers, none of which is the string BYE, the preview
    and the handler both emit n*(n-1)/2 matchups, and every two distinct
    teams of the roster meet in exactly one of them. *)
Theorem C1_every_pair_exactly_once env leagueId db :
  leagueId <> EmptyString ->
  (2 <= length (roster db leagueId))%nat ->
  NoDup (teamIds (roster db leagueId)) ->
  "BYE" ∉ teamIds (roster db leagueId) ->
  (exists sched,
     generateRoundRobinPreview env (roster db leagueId) = Ok sched /\
     Coverage (roster db leagueId) (previewIds <$> sched)) /\
  (exists fs db',
     POST env (generateRequest leagueId) db = (Json fs, db') /\
     Coverage (roster db leagueId) (fixtureIds <$> fs)).
Proof.
  intros Hid Hn Hnd Hno. split.
  - destruct (preview_ids env _ Hn) as (sched & Hrun & E).
    exists sched. split; [done|]. rewrite E. by apply coverage_allMatches.
  - destruct (server_ids env leagueId db Hid Hn) as (fs & db' & Hrun & E).
    exists fs, db'. split; [done|]. rewrite E. by apply coverage_allMatches.
Qed.

(** C1 at a league of three teams. *)
Lemma C1_witness :
  (exists sched,
     generateRoundRobinPreview exampleEnv (roster (exampleDb threeTeams []) "league-1")
     = Ok sched /\
     Coverage (roster (exampleDb threeTeams []) "league-1") (previewIds <$> sched)) /\
  (exists fs db',
     POST exampleEnv (generateRequest "league-1") (exampleDb threeTeams [])
     = (Json fs, db') /\
     Coverage (roster (exampleDb threeTeams []) "league-1") (fixtureIds <$> fs)).
Proof.
  apply C1_every_pair_exactly_once.
  - discriminate.
  - simpl. lia.
  - by_decide.
  - by_decide.
Defined.

(** C1 as stated fails on a roster with a team whose identifier is BYE:
    its two teams are distinct, and they never meet. *)
Lemma C1_counterexample :
  (2 <= length byeTeams)%nat /\ NoDup (teamIds byeTeams) /\
  exists sched,
    generateRoundRobinPreview exampleEnv byeTeams = Ok sched /\
    ~ Coverage byeTeams (previewIds <$> sched).
Proof.
  split; [simpl; lia|]. split; [by_decide|].
  exists []. split; [reflexivity|].
  intros [Hcount _]. vm_compute in Hcount. discriminate.
Qed.

(** C2: for every roster of n >= 2 teams with pairwise distinct
    identifiers, no identifier occurs twice among the home and away sides
    of the matchups of one round, be it twice in one matchup (home equal
    to away) or in two matchups.  The rounds of the preview are told apart
    by their round number, those of the handler by their date. *)
Theorem C2_one_matchup_per_team_and_round env leagueId db :
  leagueId <> EmptyString ->
  (2 <= length (roster db leagueId))%nat ->
  NoDup (teamIds (roster db leagueId)) ->
  (exists sched,
     generateRoundRobinPreview env (roster db leagueId) = Ok sched /\
     forall k, NoDup (inRound k sched ≫= previewSides)) /\
  (exists fs db',
     POST env (generateRequest leagueId) db = (Json fs, db') /\
     forall d, NoDup (onDate d fs ≫= fixtureSides)).
Proof.
  intros Hid Hn Hnd.
  destruct (padded_shape _ Hn) as (m & h & Hlen & Hm & _ & _).
  assert (Hround : forall r, (r < m)%nat ->
            NoDup (matches (rotation_at (padded (roster db leagueId)) r) ≫= sides)).
  { intros r Hr. apply (round_sides_NoDup _ m h); auto using padded_unique. }
  split.
  - eexists. split; [by apply preview_schedule|]. intros k.
    rewrite Hlen. replace (S m - 1)%nat with m by lia.
    apply (group_NoDup FixturePreview.round _ (fun r => Z.of_nat r + 1)).
    + intros r f Hf. by apply previewRound_round in Hf as [? _].
    + intros; lia.
    + intros r Hr. unfold previewSides. rewrite previewRound_sides. by apply Hround.
  - eexists _, _. split; [by apply server_generate|].
    intros d. rewrite onDate_stored. fold (roster db leagueId).
    rewrite Hlen. replace (S m - 1)%nat with m by lia.
    apply (group_NoDup FixtureData.scheduledAt _
             (fun r => GenerateRoute.roundDate env (GenerateRoute.startDate env) (Z.of_nat r))).
    + intros r x Hx. by apply serverRound_date in Hx.
    + intros r r' _ _. apply server_roundDate_inj.
    + intros r Hr. rewrite serverRound_sides. by apply Hround.
Qed.

(** C2 at a league of three teams. *)
Lemma C2_witness :
  (exists sched,
     generateRoundRobinPreview exampleEnv (roster (exampleDb threeTeams []) "league-1")
     = Ok sched /\
     forall k, NoDup (inRound k sched ≫= previewSides)) /\
  (exists fs db',
     POST exampleEnv (generateRequest "league-1") (exampleDb threeTeams [])
     = (Json fs, db') /\
     forall d, NoDup (onDate d fs ≫= fixtureSides)).
Proof.
  apply C2_one_matchup_per_team_and_round.
  - discriminate.
  - simpl. lia.
  - by_decide.
Defined.

(** C3, as amended: for every roster of n >= 2 teams with pairwise
    distinct identifiers that has no team with the identifier BYE or has
    at least 4 teams, the rounds that carry a matchup are exactly the
    rounds 1 to n-1 when n is even and 1 to n when n is odd; the handler
    schedules fixtures on exactly the dates of those rounds. *)
Theorem C3_round_count env leagueId db :
  leagueId <> EmptyString ->
  (2 <= length (roster db leagueId))%nat ->
  NoDup (teamIds (roster db leagueId)) ->
  "BYE" ∉ teamIds (roster db leagueId) \/ (4 <= length (roster db leagueId))%nat ->
  (exists sched,
     generateRoundRobinPreview env (roster db leagueId) = Ok sched /\
     RoundsPlayed sched (roundCount (length (roster db leagueId)))) /\
  (exists fs db',
     POST env (generateRequest leagueId) db = (Json fs, db') /\
     DatesPlayed env fs (roundCount (length (roster db leagueId)))).
Proof.
  intros Hid Hn Hnd Hbye.
  destruct (padded_shape _ Hn) as (m & h & Hlen & Hm & _ & _).
  rewrite (roundCount_padded _ m) by done.
  split.
  - eexists. split; [by apply preview_schedule|]. intros k.
    rewrite Hlen. replace (S m - 1)%nat with m by lia.
    rewrite (group_played FixturePreview.round _ (fun r => Z.of_nat r + 1) m).
    + split; [intros (r & ? & <-); lia|].
      intros Hk. exists (Z.to_nat (k - 1)). lia.
    + intros r f Hf. by apply previewRound_round in Hf as [? _].
    + intros r Hr. apply previewRound_nonempty. by apply (round_played _ m h).
  - eexists _, _. split; [by apply server_generate|].
    intros d. fold (roster db leagueId). rewrite Hlen.
    replace (S m - 1)%nat with m by lia.
    transitivity (exists x, x ∈ seq 0 m ≫= serverRound env leagueId (GenerateRoute.startDate env)
                              (padded (roster db leagueId))
                       /\ FixtureData.scheduledAt x = d).
    { split.
      - intros (f & Hf%elem_of_stored & Hd). eauto.
      - intros (x & Hx & Hd).
        apply (stored_elem_of (Db.gen_random_uuid db) (Db.drawn db)) in Hx as (f & Hf & <-).
        eauto. }
    rewrite (group_played FixtureData.scheduledAt _
              (fun r => GenerateRoute.roundDate env (GenerateRoute.startDate env) (Z.of_nat r)) m).
    + split.
      * intros (r & Hr & <-). exists (Z.of_nat r). split; [lia|done].
      * intros (k & Hk & ->). exists (Z.to_nat k). split; [lia|]. by rewrite Z2Nat.id by lia.
    + intros r x Hx. by apply serverRound_date in Hx.
    + intros r Hr. apply serverRound_nonempty. by apply (round_played _ m h).
Qed.

(** C3 at a league of four teams one of which has the identifier BYE:
    each of its three rounds has a matchup. *)
Lemma C3_witness :
  (exists sched,
     generateRoundRobinPreview exampleEnv (roster (exampleDb byeFour []) "league-1")
     = Ok sched /\
     RoundsPlayed sched (roundCount (length (roster (exampleDb byeFour []) "league-1")))) /\
  (exists fs db',
     POST exampleEnv (generateRequest "league-1") (exampleDb byeFour [])
     = (Json fs, db') /\
     DatesPlayed exampleEnv fs
       (roundCount (length (roster (exampleDb byeFour []) "league-1")))).
Proof.
  apply C3_round_count.
  - discriminate.
  - simpl. lia.
  - by_decide.
  - right. simpl. lia.
Defined.

(** C3 as stated fails on the rosters of two and of three distinct
    teams one of which has the identifier BYE: the one round of the
    first carries no matchup, and of the three rounds of the second only
    the first does. *)
Lemma C3_counterexample :
  ((2 <= length byeTeams)%nat /\ NoDup (teamIds byeTeams) /\
   exists sched,
     generateRoundRobinPreview exampleEnv byeTeams = Ok sched /\
     ~ RoundsPlayed sched (roundCount (length byeTeams))) /\
  ((2 <= length byeThree)%nat /\ NoDup (teamIds byeThree) /\
   exists sched,
     generateRoundRobinPreview exampleEnv byeThree = Ok sched /\
     ~ RoundsPlayed sched (roundCount (length byeThree))).
Proof.
  split.
  - split; [simpl; lia|]. split; [by_decide|].
    exists []. split; [reflexivity|].
    intros Hplayed. destruct (proj2 (Hplayed 1)) as (f & Hf & _).
    + vm_compute. split; discriminate.
    + by apply elem_of_nil in Hf.
  - split; [simpl; lia|]. split; [by_decide|].
    eexists. split; [vm_compute; reflexivity|].
    intros Hplayed. destruct (proj2 (Hplayed 2)) as (f & Hf & Hround).
    + vm_compute. split; discriminate.
    + apply list_elem_of_singleton in Hf as ->. discriminate Hround.
Qed.

(** C4, as amended: for every roster, when the preview and the handler
    read the same instant in the same time zone they give the same
    schedule: entry by entry, in the same order, the same home and away
    team, the preview's date the ISO rendering of the fixture's date,
    which is the date of the entry's round. *)
Theorem C4_preview_and_handler_agree client server leagueId db :
  leagueId <> EmptyString ->
  now client = now server ->
  zone client = zone server ->
  exists sched,
    generateRoundRobinPreview client (roster db leagueId) = Ok sched /\
    Forall2 (Agree server) sched (createdIn (POST server (generateRequest leagueId) db).1).
Proof.
  intros Hid Hnow Hzone. destruct client, server. simpl in Hnow, Hzone. subst.
  by apply runs_agree.
Qed.

(** C4 at a league of three teams, client and server in Berlin. *)
Lemma C4_witness :
  exists sched,
    generateRoundRobinPreview octoberBerlin (roster (exampleDb threeTeams []) "league-1")
    = Ok sched /\
    Forall2 (Agree octoberBerlin) sched
      (createdIn (POST octoberBerlin (generateRequest "league-1")
                       (exampleDb threeTeams [])).1).
Proof. apply C4_preview_and_handler_agree; [discriminate|reflexivity|reflexivity]. Defined.

(** C4 as stated fails when only the instant is fixed.  Read on a
    Friday at 23:00 UTC, a client two hours ahead of UTC dates the first
    round on 14 November (08:00 UTC) and a server on UTC on 7 November
    (10:00 UTC).  Nor is the same offset at that instant enough: read on
    21 October 2026, when Berlin is two hours ahead of UTC, a client in
    Berlin and a server two hours ahead all year agree on the first
    round and are an hour apart on the second. *)
Lemma C4_counterexample :
  (now clientEnv = now serverEnv /\
   exists sched fs db',
     generateRoundRobinPreview clientEnv (roster (exampleDb threeTeams []) "league-1")
     = Ok sched /\
     POST serverEnv (generateRequest "league-1") (exampleDb threeTeams [])
     = (Json fs, db') /\
     ~ Forall2 (fun p f =>
                  FixturePreview.scheduledAt p
                  = JSDate.toISOString (FixtureData.scheduledAt (Fixture.data f)))
         sched fs) /\
  (now octoberBerlin = now octoberPlusTwo /\
   JSDate.LocalTZA (zone octoberBerlin) (now octoberBerlin) true
   = JSDate.LocalTZA (zone octoberPlusTwo) (now octoberPlusTwo) true /\
   exists sched fs db',
     generateRoundRobinPreview octoberBerlin (roster (exampleDb threeTeams []) "league-1")
     = Ok sched /\
     POST octoberPlusTwo (generateRequest "league-1") (exampleDb threeTeams [])
     = (Json fs, db') /\
     ~ Forall2 (fun p f =>
                  FixturePreview.scheduledAt p
                  = JSDate.toISOString (FixtureData.scheduledAt (Fixture.data f)))
         sched fs).
Proof.
  split.
  - split; [reflexivity|].
    eexists _, _, _. split; [vm_compute; reflexivity|].
    split; [vm_compute; reflexivity|].
    intros H. apply Forall2_cons_1 in H as [Hdate _].
    vm_compute in Hdate. discriminate Hdate.
  - split; [reflexivity|]. split; [reflexivity|].
    eexists _, _, _. split; [vm_compute; reflexivity|].
    split; [vm_compute; reflexivity|].
    intros H. apply Forall2_cons_1 in H as [_ H]. apply Forall2_cons_1 in H as [Hdate _].
    vm_compute in Hdate. discriminate Hdate.
Qed.






(** C7: the output is a function of the roster, the time zone and the
    clock, and of the clock through the local calendar day alone.  Two
    runs in one time zone, at the same instant or at two instants of
    one local day whose coming Saturday is on the clock, on stores that
    answer the team query alike, whatever fixtures the stores hold and
    whatever keys they draw: the handler responds with the same status
    and creates fixtures with the same data in the same order, and the
    previews of every roster are the same. *)
Theorem C7_deterministic env1 env2 req db1 db2 :
  zone env1 = zone env2 ->
  now env1 = now env2 \/
  (localDay env1 (now env1) = localDay env2 (now env2) /\
   AnchorKept env1 /\ AnchorKept env2) ->
  (forall leagueId, roster db1 leagueId = roster db2 leagueId) ->
  statusOf (POST env1 req db1).1 = statusOf (POST env2 req db2).1 /\
  Fixture.data <$> createdIn (POST env1 req db1).1
  = Fixture.data <$> createdIn (POST env2 req db2).1 /\
  forall teams,
    generateRoundRobinPreview env1 teams = generateRoundRobinPreview env2 teams.
Proof.
  intros Hz Hclock Hteams.
  assert (FixtureGenerator.startDate env1 = FixtureGenerator.startDate env2) as Hs.
  { destruct Hclock as [Hnow|(Hday & H1 & H2)].
    - apply startDate_now; [exact Hz|exact Hnow].
    - apply startDate_day; [exact Hz|exact Hday|exact H1|exact H2]. }
  assert (GenerateRoute.startDate env1 = GenerateRoute.startDate env2) as Hs'.
  { exact (eq_trans (startDate_same env1) (eq_trans Hs (eq_sym (startDate_same env2)))). }
  destruct (server_same env1 env2 req db1 db2 Hz Hs' Hteams) as [Hstatus Hdata].
  split_and!; [exact Hstatus|exact Hdata|].
  intros teams. apply preview_same; [exact Hz|exact Hs].
Qed.

(** C7 on the morning and the evening of Monday 2 November 2026 in
    Berlin, on a fresh store and on one that holds a fixture and draws
    other keys. *)
Lemma C7_witness :
  statusOf (POST morningEnv (generateRequest "league-1") (exampleDb threeTeams [])).1
  = statusOf (POST exampleEnv (generateRequest "league-1") (usedDb threeTeams)).1 /\
  Fixture.data <$> createdIn (POST morningEnv (generateRequest "league-1")
                                (exampleDb threeTeams [])).1
  = Fixture.data <$> createdIn (POST exampleEnv (generateRequest "league-1")
                                  (usedDb threeTeams)).1 /\
  forall teams,
    generateRoundRobinPreview morningEnv teams = generateRoundRobinPreview exampleEnv teams.
Proof.
  apply C7_deterministic.
  - reflexivity.
  - right. split; [vm_compute; reflexivity|]. split; split; vm_compute; reflexivity.
  - reflexivity.
Defined.

(** C8, as amended: on a roster of fewer than 2 teams the handler answers
    400 and leaves the store as it was; the preview raises no error and
    returns the empty schedule. *)
Theorem C8_fewer_than_two_teams env leagueId db :
  leagueId <> EmptyString ->
  (length (roster db leagueId) < 2)%nat ->
  generateRoundRobinPreview env (roster db leagueId) = Ok [] /\
  POST env (generateRequest leagueId) db
  = (Text 400 "At least two teams are required", db).
Proof.
  intros Hid Hn. split; [by apply preview_small|by apply server_generate_small].
Qed.

(** C8 at a league of one team. *)
Lemma C8_witness :
  generateRoundRobinPreview exampleEnv (roster (exampleDb oneTeam []) "league-1") = Ok [] /\
  POST exampleEnv (generateRequest "league-1") (exampleDb oneTeam [])
  = (Text 400 "At least two teams are required", exampleDb oneTeam []).
Proof. apply C8_fewer_than_two_teams; [discriminate|simpl; lia]. Defined.

(** C8 as stated fails for the preview: on a roster of one team it does
    not fail, it returns a schedule (the empty one). *)
Lemma C8_counterexample :
  (length oneTeam < 2)%nat /\
  ~ exists e, generateRoundRobinPreview exampleEnv oneTeam = Throw e.
Proof. split; [simpl; lia|]. intros [e He]. discriminate He. Qed.

(** C9, as amended: the generators take no policy.  A request whose
    body carries one next to the league, with whatever values, is
    answered like the request without it, with the same response and the
    same store: for a league of at least 2 teams with status 200 and the
    fixtures of the schedule. *)
Theorem C9_policy_is_not_read env leagueId p db :
  leagueId <> EmptyString ->
  (2 <= length (roster db leagueId))%nat ->
  POST env (policyRequest leagueId p) db = POST env (generateRequest leagueId) db /\
  POST env (policyRequest leagueId p) db
  = (Json (serverRows env leagueId db), grown db (serverRows env leagueId db)).
Proof.
  intros Hid Hn.
  assert (POST env (policyRequest leagueId p) db = POST env (generateRequest leagueId) db)
    as E by (by apply server_body).
  split; [exact E|]. rewrite E. by apply server_generate.
Qed.

(** C9 at a request with a negative interval and weekday 9. *)
Lemma C9_witness :
  POST exampleEnv (policyRequest "league-1" badPolicy) (exampleDb threeTeams [])
  = POST exampleEnv (generateRequest "league-1") (exampleDb threeTeams []) /\
  POST exampleEnv (policyRequest "league-1" badPolicy) (exampleDb threeTeams [])
  = (Json (serverRows exampleEnv "league-1" (exampleDb threeTeams [])),
     grown (exampleDb threeTeams [])
       (serverRows exampleEnv "league-1" (exampleDb threeTeams []))).
Proof.
  apply C9_policy_is_not_read.
  - discriminate.
  - simpl. lia.
Defined.

(** C9 as stated fails: the request with the malformed policy is not
    answered with an error, it is answered 200. *)
Lemma C9_counterexample :
  malformed badPolicy /\
  statusOf (POST exampleEnv (policyRequest "league-1" badPolicy)
              (exampleDb threeTeams [])).1 = 200 /\
  ~ exists status body,
      (POST exampleEnv (policyRequest "league-1" badPolicy) (exampleDb threeTeams [])).1
      = Text status body.
Proof.
  assert (POST exampleEnv (policyRequest "league-1" badPolicy) (exampleDb threeTeams [])
          = (Json (serverRows exampleEnv "league-1" (exampleDb threeTeams [])),
             grown (exampleDb threeTeams [])
               (serverRows exampleEnv "league-1" (exampleDb threeTeams [])))) as E.
  { apply (server_schedule _ _ (JStr "league-1")); [reflexivity|reflexivity|simpl; lia]. }
  split; [left; simpl; lia|]. rewrite E. split; [reflexivity|].
  intros (status & body & H). discriminate H.
Qed.

(** C10: in every roster of n >= 2 teams that has a team with the
    identifier BYE, that identifier is on neither side of any emitted
    matchup, and full coverage fails, in the preview and in the handler. *)
Theorem C10_team_called_BYE_never_plays env leagueId db :
  leagueId <> EmptyString ->
  (2 <= length (roster db leagueId))%nat ->
  "BYE" ∈ teamIds (roster db leagueId) ->
  (exists sched,
     generateRoundRobinPreview env (roster db leagueId) = Ok sched /\
     (forall f, f ∈ sched ->
        Team.id (FixturePreview.home f) <> "BYE"%string /\
        Team.id (FixturePreview.away f) <> "BYE"%string) /\
     ~ Coverage (roster db leagueId) (previewIds <$> sched)) /\
  (exists fs db',
     POST env (generateRequest leagueId) db = (Json fs, db') /\
     (forall f, f ∈ fs ->
        FixtureData.homeTeamId (Fixture.data f) <> "BYE"%string /\
        FixtureData.awayTeamId (Fixture.data f) <> "BYE"%string) /\
     ~ Coverage (roster db leagueId) (fixtureIds <$> fs)).
Proof.
  intros Hid Hn Hbye. split.
  - destruct (preview_ids env _ Hn) as (sched & Hrun & E).
    exists sched. split; [done|]. split.
    + intros f Hf. apply (list_elem_of_fmap_2 previewIds) in Hf. rewrite E in Hf.
      apply allMatches_no_bye in Hf as (? & ? & _); done.
    + rewrite E. by apply no_coverage_with_bye.
  - destruct (server_ids env leagueId db Hid Hn) as (fs & db' & Hrun & E).
    exists fs, db'. split; [done|]. split.
    + intros f Hf. apply (list_elem_of_fmap_2 fixtureIds) in Hf. rewrite E in Hf.
      apply allMatches_no_bye in Hf as (? & ? & _); done.
    + rewrite E. by apply no_coverage_with_bye.
Qed.

(** C10 at a league of two teams, one of them with the identifier BYE. *)
Lemma C10_witness :
  (exists sched,
     generateRoundRobinPreview exampleEnv (roster (exampleDb byeTeams []) "league-1")
     = Ok sched /\
     (forall f, f ∈ sched ->
        Team.id (FixturePreview.home f) <> "BYE"%string /\
        Team.id (FixturePreview.away f) <> "BYE"%string) /\
     ~ Coverage (roster (exampleDb byeTeams []) "league-1") (previewIds <$> sched)) /\
  (exists fs db',
     POST exampleEnv (generateRequest "league-1") (exampleDb byeTeams [])
     = (Json fs, db') /\
     (forall f, f ∈ fs ->
        FixtureData.homeTeamId (Fixture.data f) <> "BYE"%string /\
        FixtureData.awayTeamId (Fixture.data f) <> "BYE"%string) /\
     ~ Coverage (roster (exampleDb byeTeams []) "league-1") (fixtureIds <$> fs)).
Proof.
  apply C10_team_called_BYE_never_plays.
  - discriminate.
  - simpl. lia.
  - by_decide.
Defined.

(** * Further facts about the generators

    Lemmas behind the properties stated at the end of the file. *)

(** ** What a request does to the store *)
Module StoreFacts.

Lemma serverRows_ids env leagueId db :
  fixtureIds <$> serverRows env leagueId db
  = ids <$> allMatches (padded (roster db leagueId)).
Proof.
  unfold serverRows.
  rewrite (stored_fmap (fun d => (FixtureData.homeTeamId d, FixtureData.awayTeamId d))).
  rewrite fmap_bind. unfold allMatches. rewrite fmap_bind.
  apply list_bind_ext; [|done]. intros r. apply serverRound_ids.
Qed.

End StoreFacts.

(** ** Who sits where *)
Module PlayFacts.
Import StoreFacts.
Local Open Scope nat_scope.

Lemma elem_of_matches items m h r p :
  length items = S m -> m + 1 = 2 * h ->
  p ∈ matches (rotation_at items r) <->
  exists i, i < h /\ pairAt (rotation_at items r) i = Some p.
Proof.
  intros Hlen Hm. rewrite (matches_rotation items m h) by done.
  rewrite list_elem_of_omap. split.
  - intros (i & Hi%elem_of_seq & Hp). exists i. split; [lia|done].
  - intros (i & Hi & Hp). exists i. split; [apply elem_of_seq; lia|done].
Qed.

(** Both sides of a matchup are teams of the roster, never the bye. *)
Lemma matches_real teams r p :
  2 <= length teams -> r < length (padded teams) - 1 ->
  p ∈ matches (rotation_at (padded teams) r) ->
  p.1 ∈ teams /\ p.2 ∈ teams /\ isBye p.1 = false /\ isBye p.2 = false.
Proof.
  intros Hn Hr Hp. destruct p as [t1 t2].
  destruct (padded_shape teams Hn) as (m & h & Hlen & Hm & _ & _).
  assert ((t1, t2) ∈ allMatches (padded teams)) as Hall.
  { unfold allMatches. apply list_elem_of_bind. exists r. split; [done|].
    apply elem_of_seq. lia. }
  apply (allMatches_real _ m h Hlen Hm) in Hall as (H1 & H2 & B1 & B2).
  simpl. split_and!; [| |done..].
  - apply padded_elem in H1 as [? | ->]; done.
  - apply padded_elem in H2 as [? | ->]; done.
Qed.

(** The away side never comes from seat 0. *)
Lemma away_seat m h r i : m + 1 = 2 * h -> i < h -> src m r (m - i) <> 0.
Proof. intros. src_cases. Qed.

Lemma away_not_first teams t0 r p :
  2 <= length teams -> NoDup (teamIds teams) -> teams !! 0 = Some t0 ->
  r < length (padded teams) - 1 ->
  p ∈ matches (rotation_at (padded teams) r) -> Team.id p.2 <> Team.id t0.
Proof.
  intros Hn Hnd H0 Hr Hp E. destruct p as [t1 t2].
  destruct (padded_shape teams Hn) as (m & h & Hlen & Hm & _ & _).
  apply (elem_of_matches _ m h) in Hp as (i & Hi & Hp); [|done..].
  apply (pairAt_Some _ m h) in Hp as (_ & E2 & _ & B2); [|done|done|lia|done].
  apply padded_lookup in H0.
  pose proof (padded_unique teams Hnd _ _ _ _ E2 H0 E B2) as Hs.
  by apply (away_seat m h r i) in Hs.
Qed.

(** Every item sits at some seat of every round. *)
Lemma src_surj m r a : r < m -> a <= m -> exists p, p <= m /\ src m r p = a.
Proof.
  intros Hr Ha. destruct (Nat.eq_dec a 0) as [->|Ha0].
  { exists 0. src_cases. }
  destruct (le_lt_dec a (m - r)).
  - exists (a + r). src_cases.
  - exists (a - (m - r)). src_cases.
Qed.

(** The seat of an item belongs to one slot, as its home or away seat. *)
Lemma seat_slot m h p :
  m + 1 = 2 * h -> p <= m ->
  exists i, i < h /\ (p = i \/ p = m - i).
Proof.
  intros Hm Hp. destruct (le_lt_dec h p).
  - exists (m - p). lia.
  - exists p. lia.
Qed.

Section Sides.
Variables (items : list Team.t) (m h : nat).
Hypothesis Hlen : length items = S m.
Hypothesis Hm : m + 1 = 2 * h.

Lemma elem_of_round_sides r y :
  r < m ->
  y ∈ matches (rotation_at items r) ≫= sides <->
  exists i t1 t2, i < h /\ pairAt (rotation_at items r) i = Some (t1, t2) /\
                  (y = Team.id t1 \/ y = Team.id t2).
Proof.
  intros Hr. rewrite list_elem_of_bind. split.
  - intros ([t1 t2] & Hy & Hp). apply (elem_of_matches _ m h) in Hp as (i & Hi & Hp); [|done..].
    exists i, t1, t2. split_and!; [done..|].
    unfold sides in Hy. simpl in Hy.
    apply elem_of_cons in Hy as [->|Hy]; [by left|].
    apply list_elem_of_singleton in Hy as ->. by right.
  - intros (i & t1 & t2 & Hi & Hp & Hy). exists (t1, t2). split.
    + unfold sides. simpl. destruct Hy as [-> | ->]; [left|right; left].
    + apply (elem_of_matches _ m h); [done..|]. by exists i.
Qed.

(** The slot an item sits in, and the item opposite. *)
Lemma seated r a t :
  r < m -> items !! a = Some t ->
  exists i q b tb, i < h /\ items !! b = Some tb /\
    ((src m r i = a /\ q = m - i) \/ (src m r (m - i) = a /\ q = i)) /\
    src m r q = b.
Proof.
  intros Hr Ha. apply lookup_lt_Some in Ha as Hlt.
  destruct (src_surj m r a) as (p & Hp & Hs); [lia..|].
  destruct (seat_slot m h p) as (i & Hi & Hpi); [lia..|].
  set (q := if decide (p = i) then m - i else i).
  destruct (lookup_lt_is_Some_2 items (src m r q)) as [tb Hb].
  { pose proof (src_range m r q). unfold q in *. case_decide; lia. }
  exists i, q, (src m r q), tb. split_and!; [done|done| |done].
  unfold q. case_decide; [left|right]; split; [congruence|done| |done].
  destruct Hpi; congruence.
Qed.

(** Without a bye every team is on the field in every round. *)
Lemma plays_every_round r t :
  (forall t, t ∈ items -> isBye t = false) -> r < m -> t ∈ items ->
  Team.id t ∈ matches (rotation_at items r) ≫= sides.
Proof.
  intros Hreal Hr [a Ha]%list_elem_of_lookup_1.
  destruct (seated r a t Hr Ha) as (i & q & b & tb & Hi & Hb & Hseat & Hq).
  apply elem_of_round_sides; [done|].
  assert (isBye t = false) by (by eapply Hreal, list_elem_of_lookup_2).
  assert (isBye tb = false) by (by eapply Hreal, list_elem_of_lookup_2).
  destruct Hseat as [[Hs ->]|[Hs ->]].
  - exists i, t, tb. split_and!; [done| |by left].
    apply (pairAt_Some items m h); [done..|]. rewrite Hs, Hq. done.
  - exists i, tb, t. split_and!; [done| |by right].
    apply (pairAt_Some items m h); [done..|]. rewrite Hs, Hq. done.
Qed.

(** With the bye in the last place, a team is off the field in the one
    round that seats it opposite the bye. *)
Lemma idle_one_round a t :
  (forall k t, items !! k = Some t -> isBye t = true <-> k = m) ->
  UniqueReal items -> a < m -> items !! a = Some t ->
  exists r0, r0 < m /\
    forall r, r < m ->
      Team.id t ∈ matches (rotation_at items r) ≫= sides <-> r <> r0.
Proof.
  intros Hbye Huniq Ham Ha.
  assert (isBye t = false) as Bt.
  { destruct (isBye t) eqn:B; [|done]. apply (Hbye a t Ha) in B. lia. }
  destruct (slot_exists m h a m) as (r0 & i0 & Hr0 & Hi0 & Hs0); [lia..|].
  exists r0. split; [done|]. intros r Hr. split.
  - intros Hy ->. apply elem_of_round_sides in Hy as (i & t1 & t2 & Hi & Hp & Hy); [|done].
    apply (pairAt_Some items m h) in Hp as (E1 & E2 & B1 & B2); [|done..].
    assert (src m r0 i <> m /\ src m r0 (m - i) <> m) as [N1 N2].
    { split; intros E; [rewrite E in E1|rewrite E in E2].
      - apply Hbye in E1. destruct E1 as [_ E1]. rewrite E1 in B1; done.
      - apply Hbye in E2. destruct E2 as [_ E2]. rewrite E2 in B2; done. }
    assert (src m r0 i = a \/ src m r0 (m - i) = a) as Hseat.
    { destruct Hy as [Hy|Hy]; [left|right].
      - symmetry. by apply (Huniq _ _ _ _ Ha E1).
      - symmetry. by apply (Huniq _ _ _ _ Ha E2). }
    destruct Hs0 as [[A B]|[A B]], Hseat as [Hs|Hs].
    + assert (src m r0 i = src m r0 i0) as Hx by congruence.
      apply src_inj in Hx; [|lia..]. subst i0. congruence.
    + assert (src m r0 (m - i) = src m r0 i0) as Hx by congruence.
      apply src_inj in Hx; lia.
    + assert (src m r0 i = src m r0 (m - i0)) as Hx by congruence.
      apply src_inj in Hx; lia.
    + assert (src m r0 (m - i) = src m r0 (m - i0)) as Hx by congruence.
      apply src_inj in Hx; [|lia..]. assert (i = i0) as -> by lia. congruence.
  - intros Hne.
    destruct (seated r a t Hr Ha) as (i & q & b & tb & Hi & Hb & Hseat & Hq).
    assert (b <> m) as Hbm.
    { intros ->. apply Hne.
      destruct (slot_unique m h r i r0 i0) as [? _]; [done..| |done].
      destruct Hseat as [[Hs ->]|[Hs ->]], Hs0 as [[A B]|[A B]];
        [left|right|right|left]; split; congruence. }
    assert (isBye tb = false) as Btb.
    { destruct (isBye tb) eqn:B; [|done]. by apply (Hbye b tb Hb) in B. }
    apply elem_of_round_sides; [done|].
    destruct Hseat as [[Hs ->]|[Hs ->]].
    + exists i, t, tb. split_and!; [done| |by left].
      apply (pairAt_Some items m h); [done..|]. rewrite Hs, Hq. done.
    + exists i, tb, t. split_and!; [done| |by right].
      apply (pairAt_Some items m h); [done..|]. rewrite Hs, Hq. done.
Qed.

End Sides.

Lemma padded_even teams t :
  Nat.even (length teams) = true -> "BYE" ∉ teamIds teams ->
  t ∈ padded teams -> isBye t = false.
Proof.
  intros Hev Hno Ht. unfold padded in Ht.
  rewrite <- Nat.negb_even, Hev in Ht. simpl in Ht. by eapply real_not_bye.
Qed.

Lemma padded_odd teams m :
  Nat.odd (length teams) = true -> "BYE" ∉ teamIds teams ->
  length (padded teams) = S m ->
  m = length teams /\
  forall k t, padded teams !! k = Some t -> isBye t = true <-> k = m.
Proof.
  intros Hodd Hno Hlen. unfold padded in *. rewrite Hodd in *.
  rewrite length_app in Hlen. simpl in Hlen. split; [lia|]. intros k t Hk.
  apply lookup_app_Some in Hk as [Hk|[Hge Hk]].
  - apply lookup_lt_Some in Hk as Hlt.
    apply list_elem_of_lookup_2 in Hk. apply (real_not_bye _ _ Hno) in Hk.
    rewrite Hk. split; [done|lia].
  - apply list_lookup_singleton_Some in Hk as [Hk <-]. split; [lia|done].
Qed.

End PlayFacts.

(** ** Rounds, their order and the rotation *)
Module OrderFacts.
Import StoreFacts PlayFacts.
Local Open Scope nat_scope.

Section Groups.
Context {E K : Type} `{EqDecision K}.
Variables (key : E -> K) (rounds : nat -> list E) (keyOf : nat -> K) (m : nat).
Hypothesis Hkey : forall r e, e ∈ rounds r -> key e = keyOf r.
Hypothesis Hinj : forall r r', r < m -> r' < m -> keyOf r = keyOf r' -> r = r'.

(** The entries with the key of round [r0] are the entries of round [r0]. *)
Lemma group_round r0 :
  r0 < m ->
  filter (fun e => key e = keyOf r0) (seq 0 m ≫= rounds) = rounds r0.
Proof.
  intros Hr0. rewrite filter_bind.
  replace m with (r0 + S (m - r0 - 1)) at 1 by lia.
  rewrite seq_app, bind_app. simpl seq. rewrite bind_cons.
  rewrite (filter_round key rounds keyOf Hkey), decide_True by done.
  assert (forall l, (forall r, r ∈ l -> r < m /\ r <> r0) ->
            l ≫= (fun x => filter (fun e => key e = keyOf r0) (rounds x)) = []) as Hnil.
  { induction l as [|r l IH]; intros Hl; csimpl; [done|].
    rewrite (filter_round key rounds keyOf Hkey), decide_False.
    - apply IH. intros r' Hr'. apply Hl. by right.
    - intros Hk. destruct (Hl r) as [? Hne]; [left|]. apply Hne. by apply Hinj. }
  rewrite !Hnil.
  - by rewrite app_nil_r.
  - intros r Hr%elem_of_seq. lia.
  - intros r Hr%elem_of_seq. lia.
Qed.
End Groups.

Lemma onDate_stored_length d uuid base ds :
  length (onDate d (stored uuid base ds))
  = length (filter (fun x => FixtureData.scheduledAt x = d) ds).
Proof.
  unfold onDate. revert base. induction ds as [|x ds IH]; intros base; simpl; [done|].
  rewrite !filter_cons. simpl. case_decide; simpl; by rewrite IH.
Qed.

Lemma half_roster teams m h :
  length (padded teams) = S m -> m + 1 = 2 * h ->
  (if Nat.odd (length teams) then h - 1 else h) = length teams / 2.
Proof.
  intros Hlen Hm. unfold padded in Hlen.
  destruct (Nat.odd (length teams)) eqn:Hodd.
  - rewrite length_app in Hlen. simpl in Hlen.
    apply (Nat.div_unique _ _ _ 1); lia.
  - apply (Nat.div_unique _ _ _ 0); lia.
Qed.

(** The identifiers on the field in one round of the preview and on one
    date of the handler are those of the round's matchups. *)
Lemma preview_inRound_sides env start items m r :
  r < m ->
  inRound (Z.of_nat r + 1) (seq 0 m ≫= previewRound env start items) ≫= previewSides
  = matches (rotation_at items r) ≫= sides.
Proof.
  intros Hr. unfold inRound.
  rewrite (group_round FixturePreview.round _ (fun r => (Z.of_nat r + 1)%Z) m).
  - apply previewRound_sides.
  - intros r' e He. by apply previewRound_round in He as [-> _].
  - intros; lia.
  - done.
Qed.

Lemma server_onDate_sides env leagueId start items uuid base m r :
  r < m ->
  onDate (GenerateRoute.roundDate env start (Z.of_nat r))
         (stored uuid base (seq 0 m ≫= serverRound env leagueId start items)) ≫= fixtureSides
  = matches (rotation_at items r) ≫= sides.
Proof.
  intros Hr. rewrite onDate_stored.
  rewrite (group_round FixtureData.scheduledAt _
             (fun r => GenerateRoute.roundDate env start (Z.of_nat r)) m).
  - apply serverRound_sides.
  - intros r' e He. by apply serverRound_date in He.
  - intros r1 r2 _ _. apply server_roundDate_inj.
  - done.
Qed.

(** Entries emitted round after round are in the order of any key that
    grows with the round. *)
Lemma rounds_sorted {E} (key : E -> Z) (rounds : nat -> list E) (keyOf : nat -> Z)
    (a k : nat) :
  (forall r e, e ∈ rounds r -> key e = keyOf r) ->
  (forall r r', r <= r' -> (keyOf r <= keyOf r')%Z) ->
  StronglySorted Z.le (key <$> (seq a k ≫= rounds)).
Proof.
  intros Hkey Hmono. revert a. induction k as [|k IH]; intros a; csimpl; [constructor|].
  rewrite fmap_app.
  assert (forall l, Forall (fun e => key e = keyOf a) l ->
            StronglySorted Z.le ((key <$> l) ++ (key <$> (seq (S a) k ≫= rounds)))) as Hl.
  { induction l as [|e l IHl]; intros Hall; csimpl; [apply IH|].
    apply Forall_cons in Hall as [He Hall]. constructor; [by apply IHl|].
    apply Forall_app. split.
    - apply Forall_fmap. eapply Forall_impl; [exact Hall|]. simpl. intros; lia.
    - apply Forall_fmap, Forall_forall.
      intros e' (r & He' & Hr%elem_of_seq)%list_elem_of_bind. simpl.
      rewrite He, (Hkey r e' He'). apply Hmono. lia. }
  apply Hl, Forall_forall. intros e He. by apply Hkey.
Qed.

Lemma rot1_shape t0 mid last : rot1 (t0 :: mid ++ [last]) = t0 :: last :: mid.
Proof.
  unfold rot1. rewrite length_app. simpl.
  replace (length mid + 1 - 1) with (length mid) by lia.
  by rewrite drop_app_length, take_app_length.
Qed.

Lemma src_inverse m p : 1 <= m -> p <= m -> src m (m - 1) (src m 1 p) = p.
Proof. intros. src_cases. Qed.

(** The rotation is back in its initial order after one step per round. *)
Lemma rotation_period items : items <> [] -> rotation_at items (length items - 1) = items.
Proof.
  intros Hne. destruct items as [|t0 tl] eqn:E; [done|]. rewrite <- E.
  assert (length items = S (length tl)) as Hlen by (by subst).
  rewrite Hlen. replace (S (length tl) - 1) with (length tl) by lia.
  destruct (length tl) as [|m] eqn:Hm; [done|].
  change (rotation_at items (S m)) with (rot1 (rotation_at items m)).
  apply list_eq_same_length with (S (S m)); [done|by rewrite length_rot1, length_rotation_at|].
  intros i x y Hi Hx Hy.
  rewrite (lookup_rot1 _ (S m)) in Hx by (by rewrite ?length_rotation_at || lia).
  rewrite (lookup_rotation_at _ (S m)) in Hx; [|done|lia|src_cases].
  replace m with (S m - 1) in Hx at 2 by lia.
  rewrite src_inverse in Hx by lia. congruence.
Qed.

Lemma rotate_steps (rot : list Team.t -> Result (list Team.t)) items (a k : nat) :
  (forall l, l <> [] -> rot l = Ok (rot1 l)) -> items <> [] ->
  forEach (fun _ : Z => rot) (Z.of_nat <$> seq a k) items = Ok (rotation_at items k).
Proof.
  intros Hrot Hne. revert a items Hne. induction k as [|k IH]; intros a items Hne; [done|].
  change (seq a (S k)) with (a :: seq (S a) k). rewrite fmap_cons. cbn [forEach].
  rewrite Hrot by done. cbn [bind]. rewrite IH.
  - unfold rotation_at. by rewrite Nat.iter_succ_r.
  - intros E. apply (f_equal length) in E. rewrite length_rot1 in E.
    by destruct items.
Qed.

End OrderFacts.

(** ** The dates of the rounds *)
Module WeekFacts.
Import JSDate StoreFacts.

(** In a zone that keeps its Saturdays every round is on a Saturday
    morning, on a later day than the run. *)
Lemma round_SaturdayMorning env (r : nat) :
  SaturdayKept (zone env) ->
  SaturdayMorning env
    (FixtureGenerator.roundDate env (FixtureGenerator.startDate env) (Z.of_nat r)).
Proof.
  intros Hkept.
  pose proof (SaturdayKept_anchor env Hkept) as Hanchor.
  destruct (anchor_facts env Hanchor) as (Hsat & Hten & _ & [Hlt _] & _).
  pose proof (roundDate_local env (FixtureGenerator.startDate env) (Z.of_nat r)
                (SaturdayKept_round env (Z.of_nat r) Hkept)) as Hloc.
  unfold SaturdayMorning. rewrite getDay_localDay in Hsat |- *.
  rewrite !(localDay_eq env (FixtureGenerator.roundDate _ _ _)), Hloc.
  replace (Z.of_nat r * 7 * msPerDay) with ((Z.of_nat r * 7) * msPerDay) by lia.
  rewrite Day_add_days, TimeWithinDay_add_days, <- localDay_eq.
  split_and!; [|exact Hten|lia].
  replace (localDay env (FixtureGenerator.startDate env) + Z.of_nat r * 7 + 4)
    with (localDay env (FixtureGenerator.startDate env) + 4 + Z.of_nat r * 7) by lia.
  rewrite Z_mod_plus_full. exact Hsat.
Qed.

End WeekFacts.

(** * Further properties

    Properties of the two generators beyond the claims, each for every
    clock, roster, request and store unless it says otherwise. *)

Import StoreFacts PlayFacts OrderFacts WeekFacts.

(** X1: the errors of the two generators.  The preview raises none: on
    every roster, duplicates included, it returns a schedule.  The
    handler, on a store that answers its calls, goes through its catch
    clause for a body that cannot be read as JSON and for the body null,
    which it answers 500 with the message of the error, the store
    untouched; every other body it answers 200 or 400: no read of the
    scheduling loops is out of bounds. *)
Theorem X1_errors_of_the_generators env teams db :
  (exists sched, generateRoundRobinPreview env teams = Ok sched) /\
  (forall msg, POST env (Unparsable msg) db = (Text 500 msg, db)) /\
  POST env (Parsed JNull) db
  = (Text 500 "Cannot read properties of null (reading 'leagueId')", db) /\
  (forall body, body <> JNull ->
     statusOf (POST env (Parsed body) db).1 = 200 \/
     statusOf (POST env (Parsed body) db).1 = 400).
Proof.
  split; [eexists; apply preview_run|].
  split; [intros msg; apply server_unparsable|]. split; [apply server_null|].
  intros body Hbody.
  destruct (server_run env (Parsed body) db)
    as [(status & text & -> & H500 & Hstatus)|(lid & _ & _ & _ & ->)]; [|by left].
  cbn [fst statusOf]. destruct Hstatus as [->| ->]; [by right|].
  destruct (proj1 H500 eq_refl) as [[msg E]|E]; [done|]. by injection E.
Qed.

(** X2: the handler only appends to the table of fixtures.  The teams
    are as before and the table is the old one followed by exactly the
    fixtures of the response, in that order; a request that is not
    answered 200 leaves the store as it was. *)
Theorem X2_handler_only_appends env req db :
  Db.team_findMany (POST env req db).2 = Db.team_findMany db /\
  Db.fixtures (POST env req db).2 = Db.fixtures db ++ createdIn (POST env req db).1 /\
  (statusOf (POST env req db).1 <> 200 -> (POST env req db).2 = db).
Proof.
  destruct (server_run env req db) as [(status & body & -> & _)|(lid & _ & _ & _ & ->)];
    cbn [fst snd createdIn statusOf grown Db.team_findMany Db.fixtures].
  - by rewrite app_nil_r.
  - done.
Qed.

(** X3: the handler does not look at the fixtures already stored.  The
    same request sent again, at any later time, creates the same
    pairings in the same order once more; afterwards the table holds
    the old fixtures, then those of the first run, then those of the
    second. *)
Theorem X3_second_run_duplicates env1 env2 req db :
  fixtureIds <$> createdIn (POST env2 req (POST env1 req db).2).1
  = fixtureIds <$> createdIn (POST env1 req db).1 /\
  Db.fixtures (POST env2 req (POST env1 req db).2).2
  = Db.fixtures db ++ createdIn (POST env1 req db).1
      ++ createdIn (POST env2 req (POST env1 req db).2).1.
Proof.
  destruct (server_run env1 req db)
    as [(status & body & H1 & _)|(lid & Hreq & Hid & Hn & H1)].
  - rewrite H1. cbn [fst snd createdIn].
    destruct (server_run env2 req db)
      as [(status2 & body2 & -> & _)|(lid & Hreq & Hid & Hn & H2)].
    + cbn [fst snd createdIn]. by rewrite app_nil_r.
    + exfalso. rewrite (server_schedule env1 req lid db Hreq Hid Hn) in H1. discriminate H1.
  - rewrite H1. cbn [fst snd createdIn].
    set (db1 := grown db _).
    destruct (server_run env2 req db1)
      as [(status2 & body2 & H2 & _)|(lid2 & Hreq2 & Hid2 & Hn2 & H2)].
    + exfalso. rewrite (server_schedule env2 req lid db1 Hreq Hid Hn) in H2. discriminate H2.
    + rewrite H2. cbn [fst snd createdIn grown Db.fixtures]. simplify_eq.
      split; [by rewrite !serverRows_ids|].
      unfold db1 at 1. cbn [grown Db.fixtures]. by rewrite <- app_assoc.
Qed.

(** X4: every matchup is between two teams of the roster.  On every
    roster the home and the away team of a preview entry are team objects
    of the roster, and the bye placeholder is neither; every fixture the
    handler creates carries the league of the request, the status
    SCHEDULED, and the identifiers of two teams of that league's roster,
    neither of them BYE. *)
Theorem X4_matchups_are_roster_teams env teams req db :
  (exists sched,
     generateRoundRobinPreview env teams = Ok sched /\
     Forall (fun f => FixturePreview.home f ∈ teams /\ FixturePreview.away f ∈ teams /\
                      Team.id (FixturePreview.home f) <> "BYE"%string /\
                      Team.id (FixturePreview.away f) <> "BYE"%string) sched) /\
  Forall (fun f =>
            body_leagueId req = Some (FixtureData.leagueId (Fixture.data f)) /\
            FixtureData.status (Fixture.data f) = "SCHEDULED"%string /\
            FixtureData.homeTeamId (Fixture.data f) <> "BYE"%string /\
            FixtureData.awayTeamId (Fixture.data f) <> "BYE"%string /\
            exists t1 t2,
              t1 ∈ roster db (FixtureData.leagueId (Fixture.data f)) /\
              t2 ∈ roster db (FixtureData.leagueId (Fixture.data f)) /\
              FixtureData.homeTeamId (Fixture.data f) = Team.id t1 /\
              FixtureData.awayTeamId (Fixture.data f) = Team.id t2)
         (createdIn (POST env req db).1).
Proof.
  split.
  - eexists. split; [apply preview_run|]. case_decide as Hn; [|constructor].
    apply Forall_forall. intros f (r & Hf & Hr%elem_of_seq)%list_elem_of_bind.
    apply list_elem_of_fmap in Hf as (p & -> & Hp).
    apply matches_real in Hp as (H1 & H2 & B1 & B2); [|done|lia].
    cbn [previewEntry FixturePreview.home FixturePreview.away].
    split_and!; [done|done|by apply isBye_false..].
  - destruct (server_run env req db) as [(status & body & -> & _)|(lid & Hreq & Hid & Hn & ->)];
      cbn [fst createdIn]; [constructor|].
    apply Forall_forall. intros f Hf%elem_of_stored.
    apply list_elem_of_bind in Hf as (r & Hf & Hr%elem_of_seq).
    apply list_elem_of_fmap in Hf as (p & -> & Hp).
    apply matches_real in Hp as (H1 & H2 & B1 & B2); [|done|lia].
    cbn [pairData serverPair FixtureData.leagueId FixtureData.status
         FixtureData.homeTeamId FixtureData.awayTeamId homeId awayId].
    split_and!; [done|done|by apply isBye_false..|]. by exists p.1, p.2.
Qed.

(** X5: the first team of the roster never plays away.  When the
    identifiers of the roster are pairwise distinct, the team at index 0
    (the first by name, for the handler) is the away side of no matchup:
    seat 0 is never rotated and is always a home seat. *)
Theorem X5_first_team_is_never_away env (leagueId : string) db t0 :
  roster db leagueId !! 0%nat = Some t0 ->
  NoDup (teamIds (roster db leagueId)) ->
  (exists sched,
     generateRoundRobinPreview env (roster db leagueId) = Ok sched /\
     Forall (fun f => Team.id (FixturePreview.away f) <> Team.id t0) sched) /\
  Forall (fun f => FixtureData.awayTeamId (Fixture.data f) <> Team.id t0)
         (createdIn (POST env (generateRequest leagueId) db).1).
Proof.
  intros H0 Hnd. split.
  - eexists. split; [apply preview_run|]. case_decide as Hn; [|constructor].
    apply Forall_forall. intros f (r & Hf & Hr%elem_of_seq)%list_elem_of_bind.
    apply list_elem_of_fmap in Hf as (p & -> & Hp).
    apply (away_not_first _ t0) in Hp; [done..|lia].
  - destruct (server_run env (generateRequest leagueId) db)
      as [(status & body & -> & _)|(lid & Hreq & Hid & Hn & ->)];
      cbn [fst createdIn]; [constructor|].
    injection Hreq as <-.
    apply Forall_forall. intros f Hf%elem_of_stored.
    apply list_elem_of_bind in Hf as (r & Hf & Hr%elem_of_seq).
    apply list_elem_of_fmap in Hf as (p & -> & Hp).
    apply (away_not_first _ t0) in Hp; [done..|lia].
Qed.

(** X5 at a league of three teams: t1, the first, is never away. *)
Lemma X5_witness :
  (exists sched,
     generateRoundRobinPreview exampleEnv (roster (exampleDb threeTeams []) "league-1")
     = Ok sched /\
     Forall (fun f => Team.id (FixturePreview.away f) <> Team.id (Team.mk "t1" "Lions"))
            sched) /\
  Forall (fun f => FixtureData.awayTeamId (Fixture.data f) <> Team.id (Team.mk "t1" "Lions"))
         (createdIn (POST exampleEnv (generateRequest "league-1")
                          (exampleDb threeTeams [])).1).
Proof.
  apply X5_first_team_is_never_away.
  - reflexivity.
  - by_decide.
Defined.

(** X6: every round has floor(n/2) matchups.  For a roster of n >= 2
    teams none of which has the identifier BYE, each of the rounds of
    the preview holds exactly floor(n/2) entries, and the handler stores
    exactly floor(n/2) fixtures on the date of each round. *)
Theorem X6_matchups_per_round env leagueId db :
  leagueId <> EmptyString ->
  (2 <= length (roster db leagueId))%nat ->
  "BYE" ∉ teamIds (roster db leagueId) ->
  (exists sched,
     generateRoundRobinPreview env (roster db leagueId) = Ok sched /\
     forall k, 1 <= k <= roundCount (length (roster db leagueId)) ->
       length (inRound k sched) = (length (roster db leagueId) / 2)%nat) /\
  (exists fs db',
     POST env (generateRequest leagueId) db = (Json fs, db') /\
     forall k, 0 <= k < roundCount (length (roster db leagueId)) ->
       length (onDate (GenerateRoute.roundDate env (GenerateRoute.startDate env) k) fs)
       = (length (roster db leagueId) / 2)%nat).
Proof.
  intros Hid Hn Hno.
  destruct (padded_shape _ Hn) as (m & h & Hlen & Hm & Hh & _).
  rewrite (roundCount_padded _ m) by done.
  split.
  - eexists. split; [by apply preview_schedule|]. intros k Hk.
    unfold inRound. fold (roster db leagueId). rewrite Hlen.
    replace (S m - 1)%nat with m by lia.
    replace k with (Z.of_nat (Z.to_nat (k - 1)) + 1) by lia.
    rewrite (group_round FixturePreview.round _ (fun r => Z.of_nat r + 1) m).
    + unfold previewRound. rewrite length_fmap, (matches_length _ m h) by (done || lia).
      by apply (half_roster _ m h).
    + intros r e He. by apply previewRound_round in He as [-> _].
    + intros; lia.
    + lia.
  - eexists _, _. split; [by apply server_generate|]. intros k Hk.
    rewrite onDate_stored_length. fold (roster db leagueId). rewrite Hlen.
    replace (S m - 1)%nat with m by lia.
    replace k with (Z.of_nat (Z.to_nat k)) by lia.
    rewrite (group_round FixtureData.scheduledAt _
               (fun r => GenerateRoute.roundDate env (GenerateRoute.startDate env) (Z.of_nat r)) m).
    + unfold serverRound. rewrite length_fmap, (matches_length _ m h) by (done || lia).
      by apply (half_roster _ m h).
    + intros r e He. by apply serverRound_date in He.
    + intros r r' _ _. apply server_roundDate_inj.
    + lia.
Qed.

(** X6 at a league of three teams: one matchup in each of three rounds. *)
Lemma X6_witness :
  (exists sched,
     generateRoundRobinPreview exampleEnv (roster (exampleDb threeTeams []) "league-1")
     = Ok sched /\
     forall k, 1 <= k <= roundCount (length (roster (exampleDb threeTeams []) "league-1")) ->
       length (inRound k sched)
       = (length (roster (exampleDb threeTeams []) "league-1") / 2)%nat) /\
  (exists fs db',
     POST exampleEnv (generateRequest "league-1") (exampleDb threeTeams [])
     = (Json fs, db') /\
     forall k, 0 <= k < roundCount (length (roster (exampleDb threeTeams []) "league-1")) ->
       length (onDate (GenerateRoute.roundDate exampleEnv
                         (GenerateRoute.startDate exampleEnv) k) fs)
       = (length (roster (exampleDb threeTeams []) "league-1") / 2)%nat).
Proof.
  apply X6_matchups_per_round.
  - discriminate.
  - simpl. lia.
  - by_decide.
Defined.

(** X7: the schedule comes out in chronological order.  On every
    roster the round numbers of the preview entries never decrease along
    the schedule, and neither do the dates of the fixtures the handler
    creates (which it also stores in that order). *)
Theorem X7_schedule_is_chronological env teams req db :
  (exists sched,
     generateRoundRobinPreview env teams = Ok sched /\
     StronglySorted Z.le (FixturePreview.round <$> sched)) /\
  StronglySorted Z.le
    ((fun f => FixtureData.scheduledAt (Fixture.data f))
       <$> createdIn (POST env req db).1).
Proof.
  split.
  - eexists. split; [apply preview_run|]. case_decide; [|constructor].
    apply (rounds_sorted _ _ (fun r => Z.of_nat r + 1)).
    + intros r e He. by apply previewRound_round in He as [-> _].
    + intros; lia.
  - destruct (server_run env req db) as [(status & body & -> & _)|(lid & _ & _ & _ & ->)];
      cbn [fst createdIn]; [constructor|].
    unfold serverRows. rewrite (stored_fmap FixtureData.scheduledAt).
    apply (rounds_sorted _ _
             (fun r => GenerateRoute.roundDate env (GenerateRoute.startDate env) (Z.of_nat r))).
    + intros r e He. by apply serverRound_date in He.
    + intros r r' Hr. destruct (decide (r = r')) as [->|Hne]; [lia|].
      apply Z.lt_le_incl, server_roundDate_lt. lia.
Qed.

(** X8: what the rotation expression computes.  On an array of at least
    two elements the first element stays, the last moves to index 1 and
    the ones between move one place to the right; an array of one
    element is left as it is.  No exception is raised. *)
Theorem X8_rotate_shape t0 mid last :
  FixtureGenerator.rotate (t0 :: mid ++ [last]) = Ok (t0 :: last :: mid) /\
  GenerateRoute.rotate (t0 :: mid ++ [last]) = Ok (t0 :: last :: mid) /\
  FixtureGenerator.rotate [t0] = Ok [t0] /\
  GenerateRoute.rotate [t0] = Ok [t0].
Proof.
  rewrite preview_rotate, server_rotate, rot1_shape by done. done.
Qed.

(** X9: the rotation comes full circle.  Rotating a non-empty array
    once per round, length - 1 times in all, gives the array back in its
    initial order. *)
Theorem X9_rotation_comes_full_circle items :
  items <> [] ->
  forEach (fun _ => FixtureGenerator.rotate) (upto (len items - 1)) items = Ok items /\
  forEach (fun _ => GenerateRoute.rotate) (upto (len items - 1)) items = Ok items.
Proof.
  intros Hne.
  replace (len items - 1) with (Z.of_nat (length items - 1)).
  2:{ unfold len. destruct items; [done|]. simpl length. lia. }
  rewrite upto_of_nat, !rotate_steps, rotation_period
    by (done || apply preview_rotate || apply server_rotate).
  done.
Qed.

(** X9 at an array of four teams. *)
Lemma X9_witness :
  forEach (fun _ => FixtureGenerator.rotate) (upto (len fourTeams - 1)) fourTeams
  = Ok fourTeams /\
  forEach (fun _ => GenerateRoute.rotate) (upto (len fourTeams - 1)) fourTeams
  = Ok fourTeams.
Proof. apply X9_rotation_comes_full_circle. discriminate. Defined.

(** X10: the pairings do not depend on the clock.  Whatever the clocks
    and time zones of the client and of the server, the preview of a
    league's roster and the fixtures the handler creates for it list the
    same (home, away) identifiers in the same order, hence equally many;
    only the dates can differ. *)
Theorem X10_pairings_ignore_the_clock env1 env2 leagueId db :
  leagueId <> EmptyString ->
  exists sched,
    generateRoundRobinPreview env1 (roster db leagueId) = Ok sched /\
    previewIds <$> sched
    = fixtureIds <$> createdIn (POST env2 (generateRequest leagueId) db).1.
Proof.
  intros Hid. eexists. split; [apply preview_run|].
  case_decide as Hn.
  - rewrite server_generate by done. cbn [fst createdIn].
    rewrite (stored_fmap (fun d => (FixtureData.homeTeamId d, FixtureData.awayTeamId d))).
    rewrite !fmap_bind. apply list_bind_ext; [|done]. intros r.
    by rewrite previewRound_ids, serverRound_ids.
  - rewrite server_generate_small by (done || unfold roster in Hn; lia). done.
Qed.

(** X10 with a client two hours ahead of the server, where the dates
    of the two schedules differ. *)
Lemma X10_witness :
  exists sched,
    generateRoundRobinPreview clientEnv (roster (exampleDb threeTeams []) "league-1")
    = Ok sched /\
    previewIds <$> sched
    = fixtureIds <$> createdIn (POST serverEnv (generateRequest "league-1")
                                     (exampleDb threeTeams [])).1.
Proof. apply X10_pairings_ignore_the_clock. discriminate. Defined.

(** X11: every round is played on a Saturday morning, not the first
    round only.  In a time zone that keeps its Saturdays (no clock change
    moves a time of a Saturday to another day or skips a Saturday's
    10:00), on every roster, every preview entry is dated with the ISO
    rendering of a date that is a Saturday at 10:00:00.000 local time, on
    a later day than the run, and so is every fixture the handler
    creates. *)
Theorem X11_every_round_on_a_Saturday_morning env teams req db :
  SaturdayKept (zone env) ->
  (exists sched,
     generateRoundRobinPreview env teams = Ok sched /\
     Forall (fun f => exists d, FixturePreview.scheduledAt f = JSDate.toISOString d /\
                                SaturdayMorning env d) sched) /\
  Forall (fun f => SaturdayMorning env (FixtureData.scheduledAt (Fixture.data f)))
         (createdIn (POST env req db).1).
Proof.
  intros Hkept. split.
  - eexists. split; [apply preview_run|]. case_decide as Hn; [|constructor].
    apply Forall_forall. intros f (r & Hf & _)%list_elem_of_bind.
    apply previewRound_round in Hf as [_ ->]. eexists. split; [reflexivity|].
    by apply round_SaturdayMorning.
  - destruct (server_run env req db) as [(status & body & -> & _)|(lid & _ & _ & _ & ->)];
      cbn [fst createdIn]; [constructor|].
    apply Forall_forall. intros f Hf%elem_of_stored.
    apply list_elem_of_bind in Hf as (r & Hf & _).
    apply serverRound_date in Hf as ->.
    rewrite <- roundDate_same. by apply round_SaturdayMorning.
Qed.

(** X11 in Berlin, read two and a half hours before the clocks go back,
    for a league of three teams. *)
Lemma X11_witness :
  (exists sched,
     generateRoundRobinPreview autumnEnv threeTeams = Ok sched /\
     Forall (fun f => exists d, FixturePreview.scheduledAt f = JSDate.toISOString d /\
                                SaturdayMorning autumnEnv d) sched) /\
  Forall (fun f => SaturdayMorning autumnEnv (FixtureData.scheduledAt (Fixture.data f)))
         (createdIn (POST autumnEnv (generateRequest "league-1")
                          (exampleDb threeTeams [])).1).
Proof.
  apply X11_every_round_on_a_Saturday_morning.
  apply DateFacts.noSaturdaySkipped_kept. reflexivity.
Defined.

(** X12: in a roster of even size everybody plays in every round.  For
    an even number n >= 2 of teams, none with the identifier BYE, every
    team of the roster is on one side of a matchup in each of the n-1
    rounds of the preview, and of a fixture on each of the n-1 dates of
    the handler. *)
Theorem X12_even_roster_plays_every_round env leagueId db :
  leagueId <> EmptyString ->
  (2 <= length (roster db leagueId))%nat ->
  Nat.even (length (roster db leagueId)) = true ->
  "BYE" ∉ teamIds (roster db leagueId) ->
  (exists sched,
     generateRoundRobinPreview env (roster db leagueId) = Ok sched /\
     forall k t, 1 <= k <= roundCount (length (roster db leagueId)) ->
       t ∈ roster db leagueId ->
       Team.id t ∈ inRound k sched ≫= previewSides) /\
  (exists fs db',
     POST env (generateRequest leagueId) db = (Json fs, db') /\
     forall k t, 0 <= k < roundCount (length (roster db leagueId)) ->
       t ∈ roster db leagueId ->
       Team.id t ∈ onDate (GenerateRoute.roundDate env (GenerateRoute.startDate env) k) fs
                     ≫= fixtureSides).
Proof.
  intros Hid Hn Hev Hno.
  destruct (padded_shape _ Hn) as (m & h & Hlen & Hm & Hh & _).
  rewrite (roundCount_padded _ m) by done.
  assert (forall r t, (r < m)%nat -> t ∈ roster db leagueId ->
            Team.id t ∈ matches (rotation_at (padded (roster db leagueId)) r) ≫= sides)
    as Hplay.
  { intros r t Hr Ht. apply (plays_every_round _ m h); [done|done| |done|].
    - intros t'. by apply padded_even.
    - unfold padded. by rewrite <- Nat.negb_even, Hev. }
  split.
  - eexists. split; [by apply preview_schedule|]. intros k t Hk Ht.
    fold (roster db leagueId). rewrite Hlen.
    replace (S m - 1)%nat with m by lia.
    replace k with (Z.of_nat (Z.to_nat (k - 1)) + 1) by lia.
    rewrite preview_inRound_sides by lia. apply Hplay; [lia|done].
  - eexists _, _. split; [by apply server_generate|]. intros k t Hk Ht.
    fold (roster db leagueId). rewrite Hlen.
    replace (S m - 1)%nat with m by lia.
    replace k with (Z.of_nat (Z.to_nat k)) by lia.
    rewrite server_onDate_sides by lia. apply Hplay; [lia|done].
Qed.

(** X12 at a league of four teams. *)
Lemma X12_witness :
  (exists sched,
     generateRoundRobinPreview exampleEnv (roster (exampleDb fourTeams []) "league-1")
     = Ok sched /\
     forall k t, 1 <= k <= roundCount (length (roster (exampleDb fourTeams []) "league-1")) ->
       t ∈ roster (exampleDb fourTeams []) "league-1" ->
       Team.id t ∈ inRound k sched ≫= previewSides) /\
  (exists fs db',
     POST exampleEnv (generateRequest "league-1") (exampleDb fourTeams [])
     = (Json fs, db') /\
     forall k t, 0 <= k < roundCount (length (roster (exampleDb fourTeams []) "league-1")) ->
       t ∈ roster (exampleDb fourTeams []) "league-1" ->
       Team.id t ∈ onDate (GenerateRoute.roundDate exampleEnv
                             (GenerateRoute.startDate exampleEnv) k) fs
                     ≫= fixtureSides).
Proof.
  apply X12_even_roster_plays_every_round.
  - discriminate.
  - simpl. lia.
  - reflexivity.
  - by_decide.
Defined.

(** X13: in a roster of odd size every team sits out exactly one round.
    For an odd number n >= 3 of teams with pairwise distinct
    identifiers, none of them BYE, each team has one round among the n
    rounds in which it is in no matchup (the round that pairs it with the
    bye), and it is in a matchup of every other round; the round is the
    same in the preview and in the handler. *)
Theorem X13_odd_roster_one_idle_round env leagueId db a t :
  leagueId <> EmptyString ->
  (2 <= length (roster db leagueId))%nat ->
  Nat.odd (length (roster db leagueId)) = true ->
  NoDup (teamIds (roster db leagueId)) ->
  "BYE" ∉ teamIds (roster db leagueId) ->
  roster db leagueId !! a = Some t ->
  exists k0, 1 <= k0 <= roundCount (length (roster db leagueId)) /\
    (exists sched,
       generateRoundRobinPreview env (roster db leagueId) = Ok sched /\
       forall k, 1 <= k <= roundCount (length (roster db leagueId)) ->
         Team.id t ∈ inRound k sched ≫= previewSides <-> k <> k0) /\
    (exists fs db',
       POST env (generateRequest leagueId) db = (Json fs, db') /\
       forall k, 0 <= k < roundCount (length (roster db leagueId)) ->
         Team.id t ∈ onDate (GenerateRoute.roundDate env (GenerateRoute.startDate env) k) fs
                       ≫= fixtureSides
         <-> k <> k0 - 1).
Proof.
  intros Hid Hn Hodd Hnd Hno Ha.
  destruct (padded_shape _ Hn) as (m & h & Hlen & Hm & Hh & _).
  rewrite (roundCount_padded _ m) by done.
  destruct (padded_odd _ m Hodd Hno Hlen) as [Hmn Hbye].
  apply lookup_lt_Some in Ha as Hlt. apply padded_lookup in Ha.
  destruct (idle_one_round _ m h Hlen Hm a t Hbye (padded_unique _ Hnd)) as (r0 & Hr0 & Hidle);
    [lia|done|].
  exists (Z.of_nat r0 + 1). split; [lia|]. split.
  - eexists. split; [by apply preview_schedule|]. intros k Hk.
    fold (roster db leagueId). rewrite Hlen.
    replace (S m - 1)%nat with m by lia.
    replace k with (Z.of_nat (Z.to_nat (k - 1)) + 1) at 1 by lia.
    rewrite preview_inRound_sides by lia. rewrite Hidle by lia. lia.
  - eexists _, _. split; [by apply server_generate|]. intros k Hk.
    fold (roster db leagueId). rewrite Hlen.
    replace (S m - 1)%nat with m by lia.
    replace k with (Z.of_nat (Z.to_nat k)) at 1 by lia.
    rewrite server_onDate_sides by lia. rewrite Hidle by lia. lia.
Qed.

(** X13 at a league of three teams, for its second team. *)
Lemma X13_witness :
  exists k0, 1 <= k0 <= roundCount (length (roster (exampleDb threeTeams []) "league-1")) /\
    (exists sched,
       generateRoundRobinPreview exampleEnv (roster (exampleDb threeTeams []) "league-1")
       = Ok sched /\
       forall k, 1 <= k <= roundCount (length (roster (exampleDb threeTeams []) "league-1")) ->
         Team.id (Team.mk "t2" "Rovers") ∈ inRound k sched ≫= previewSides <-> k <> k0) /\
    (exists fs db',
       POST exampleEnv (generateRequest "league-1") (exampleDb threeTeams [])
       = (Json fs, db') /\
       forall k, 0 <= k < roundCount (length (roster (exampleDb threeTeams []) "league-1")) ->
         Team.id (Team.mk "t2" "Rovers")
           ∈ onDate (GenerateRoute.roundDate exampleEnv
                       (GenerateRoute.startDate exampleEnv) k) fs ≫= fixtureSides
         <-> k <> k0 - 1).
Proof.
  apply (X13_odd_roster_one_idle_round exampleEnv "league-1" (exampleDb threeTeams []) 1%nat).
  - discriminate.
  - simpl. lia.
  - reflexivity.
  - by_decide.
  - by_decide.
  - reflexivity.
Defined.

(** X14: the schedule depends on the clock through the local day only.
    Two runs in the same time zone whose clocks read the same local
    calendar day, at whatever times of that day, a clock change between
    them or not, give the same preview and the same answer and store of
    the handler, when the coming Saturday is on the clock for both (no
    clock change moves their time of day on that Saturday to another
    day, or skips its 10:00). *)
Theorem X14_same_local_day_same_schedule env1 env2 teams req db :
  zone env1 = zone env2 ->
  localDay env1 (now env1) = localDay env2 (now env2) ->
  AnchorKept env1 -> AnchorKept env2 ->
  generateRoundRobinPreview env1 teams = generateRoundRobinPreview env2 teams /\
  POST env1 req db = POST env2 req db.
Proof.
  intros Hz Hday H1 H2.
  pose proof (startDate_day env1 env2 Hz Hday H1 H2) as Hs. split.
  - apply preview_same; [exact Hz|exact Hs].
  - pose proof (server_startDate_day env1 env2 Hz Hday H1 H2) as Hs'.
    destruct req as [msg|body].
    { by rewrite (server_unparsable env1), (server_unparsable env2). }
    destruct (truthy (body_leagueId (Parsed body))) eqn:Hid.
    + destruct (body_leagueId (Parsed body)) as [v|] eqn:Hreq; [|done].
      destruct (le_lt_dec 2 (length (Db.team_findMany db v))) as [Hn|Hn].
      * rewrite (server_schedule env1 _ v), (server_schedule env2 _ v) by done.
        rewrite Hs'.
        assert (forall r, serverRound env1 v (GenerateRoute.startDate env2)
                            (padded (Db.team_findMany db v)) r
                          = serverRound env2 v (GenerateRoute.startDate env2)
                            (padded (Db.team_findMany db v)) r) as Hr.
        { intros r. by apply serverRound_env. }
        by rewrite (list_bind_ext _ _ _ _ Hr eq_refl).
      * by rewrite (server_small env1 _ v), (server_small env2 _ v).
    + destruct (null_or_not body) as [->|Hnull].
      * by rewrite (server_null env1), (server_null env2).
      * by rewrite (server_missing env1), (server_missing env2).
Qed.

(** X14 in Berlin on Sunday 25 October 2026 at 00:30 and at 22:00, the
    clocks going back in between. *)
Lemma X14_witness :
  generateRoundRobinPreview autumnEnv threeTeams
  = generateRoundRobinPreview autumnNightEnv threeTeams /\
  POST autumnEnv (generateRequest "league-1") (exampleDb threeTeams [])
  = POST autumnNightEnv (generateRequest "league-1") (exampleDb threeTeams []).
Proof.
  apply X14_same_local_day_same_schedule.
  - reflexivity.
  - vm_compute. reflexivity.
  - split; vm_compute; reflexivity.
  - split; vm_compute; reflexivity.
Defined.
